(** * Job application tracker: a priority queue of records with a lookup index

    Shallow embedding of [main.py] (classes [JobApplication] and [JobTracker])
    together with the two library routines it relies on: [heapq]
    ([heappush], [heappop] and their sift loops, after CPython's [heapq.py])
    and [datetime.strptime] for the format [%Y-%m-%d] (after CPython's
    [_strptime.py]).

    A Python [str] is a sequence of Unicode code points.  It is kept as
    the [string] of its UTF-8 bytes: two strings are equal when their bytes
    are, and [strptime], which looks at characters, reads the code points
    off the bytes.

    Python objects have identity: the heap and the dictionary of a tracker
    hold references to the same [JobApplication] instances, and a status
    written through one is seen through the other.  The embedding keeps an
    object store (a list of records, an object's identity is its position)
    and lets the heap and the dictionary hold identities. *)

From Stdlib Require Import ZArith Lia Ascii String.
From stdpp Require Import base option list sorting gmap strings pretty.
From Equations Require Import Equations.

Local Open Scope nat_scope.

(** ** heapq *)

Module Heapq.
Section Definitions.
Context {A : Type} (lt : A -> A -> bool).

(** [heap[pos] = x]; Python raises [IndexError] out of range, which is
    [None] here. *)
Definition setitem (heap : list A) (pos : nat) (x : A) : option (list A) :=
  if decide (pos < length heap) then Some (<[pos := x]> heap) else None.

(** The [while pos > startpos] loop of [_siftdown]: parents move down
    until [newitem] fits. *)
Equations? siftdown_loop (heap : list A) (newitem : A) (startpos pos : nat)
  : option (list A) by wf pos Nat.lt :=
  siftdown_loop heap newitem startpos pos with decide (startpos < pos) => {
    | left _ =>
        match heap !! Nat.shiftr (pos - 1) 1 with
        | Some parent =>
            if lt newitem parent
            then match setitem heap pos parent with
                 | Some heap' =>
                     siftdown_loop heap' newitem startpos (Nat.shiftr (pos - 1) 1)
                 | None => None
                 end
            else setitem heap pos newitem
        | None => None
        end
    | right _ => setitem heap pos newitem }.
Proof.
  change (Nat.shiftr (pos - 1) 1) with (Nat.div2 (pos - 1)).
  pose proof (Nat.div2_decr (pos - 1) (pos - 1)). lia.
Qed.

Definition _siftdown (heap : list A) (startpos pos : nat) : option (list A) :=
  match heap !! pos with
  | Some newitem => siftdown_loop heap newitem startpos pos
  | None => None
  end.

(** The test [rightpos < endpos and not heap[childpos] < heap[rightpos]]
    of [_siftup]; [and] does not read the heap when its first operand is
    false. *)
Definition right_is_smaller (heap : list A) (endpos childpos : nat)
  : option bool :=
  if decide (childpos + 1 < endpos)
  then match heap !! childpos, heap !! (childpos + 1) with
       | Some c, Some r => Some (negb (lt c r))
       | _, _ => None
       end
  else Some false.

(** The [while childpos < endpos] loop of [_siftup]: the smaller child
    moves up until a leaf is reached.  The result is the heap and the
    final [pos]. *)
Equations? siftup_loop (heap : list A) (endpos pos childpos : nat)
  : option (list A * nat) by wf (endpos - childpos) Nat.lt :=
  siftup_loop heap endpos pos childpos with decide (childpos < endpos) => {
    | left _ =>
        match right_is_smaller heap endpos childpos with
        | Some b =>
            match heap !! (if b then childpos + 1 else childpos) with
            | Some child =>
                match setitem heap pos child with
                | Some heap' =>
                    siftup_loop heap' endpos
                      (if b then childpos + 1 else childpos)
                      (2 * (if b then childpos + 1 else childpos) + 1)
                | None => None
                end
            | None => None
            end
        | None => None
        end
    | right _ => Some (heap, pos) }.
Proof. destruct b; lia. Qed.

Definition _siftup (heap : list A) (pos : nat) : option (list A) :=
  match heap !! pos with
  | Some newitem =>
      match siftup_loop heap (length heap) pos (2 * pos + 1) with
      | Some (heap1, pos1) =>
          match setitem heap1 pos1 newitem with
          | Some heap2 => _siftdown heap2 pos pos1
          | None => None
          end
      | None => None
      end
  | None => None
  end.

Definition heappush (heap : list A) (item : A) : option (list A) :=
  _siftdown (heap ++ [item]) 0 (length (heap ++ [item]) - 1).

(** [heappop] returns the popped item and the heap left. *)
Definition heappop (heap : list A) : option (A * list A) :=
  match last heap with
  | None => None
  | Some lastelt =>
      let heap := removelast heap in
      match heap with
      | [] => Some (lastelt, heap)
      | returnitem :: _ =>
          match setitem heap 0 lastelt with
          | Some heap1 =>
              match _siftup heap1 0 with
              | Some heap2 => Some (returnitem, heap2)
              | None => None
              end
          | None => None
          end
      end
  end.
End Definitions.
End Heapq.

(** ** datetime.strptime(deadline, "%Y-%m-%d") *)

Module Strptime.
(** The deadline is a [str], kept as its UTF-8 bytes: [text] is a list of
    bytes, [chars] the list of code points that the bytes encode. *)
Definition text := list ascii.
Definition chars := list N.

(** The six low bits of a continuation byte [10xxxxxx]. *)
Definition continuation (c : ascii) : option N :=
  let b := N_of_ascii c in
  if (128 <=? b)%N && (b <=? 191)%N then Some (b - 128)%N else None.

(** The code point that two, three or four bytes encode, if they are the
    UTF-8 form of one: no code point has a longer form than it needs, and
    the surrogates (U+D800 to U+DFFF) and the numbers above U+10FFFF have
    none. *)
Definition two_bytes (c0 c1 : ascii) : option N :=
  let b0 := N_of_ascii c0 in
  if (192 <=? b0)%N && (b0 <=? 223)%N then
    x1 ← continuation c1;
    let cp := ((b0 - 192) * 64 + x1)%N in
    if (128 <=? cp)%N then Some cp else None
  else None.

Definition three_bytes (c0 c1 c2 : ascii) : option N :=
  let b0 := N_of_ascii c0 in
  if (224 <=? b0)%N && (b0 <=? 239)%N then
    x1 ← continuation c1; x2 ← continuation c2;
    let cp := ((b0 - 224) * 4096 + x1 * 64 + x2)%N in
    if (2048 <=? cp)%N && negb ((55296 <=? cp)%N && (cp <=? 57343)%N)
    then Some cp else None
  else None.

Definition four_bytes (c0 c1 c2 c3 : ascii) : option N :=
  let b0 := N_of_ascii c0 in
  if (240 <=? b0)%N && (b0 <=? 247)%N then
    x1 ← continuation c1; x2 ← continuation c2; x3 ← continuation c3;
    let cp := ((b0 - 240) * 262144 + x1 * 4096 + x2 * 64 + x3)%N in
    if (65536 <=? cp)%N && (cp <=? 1114111)%N then Some cp else None
  else None.

(** A byte on its own: an ASCII character, or a byte that begins no
    UTF-8 form, which stands for the lone surrogate U+DC00 + byte, as
    Python reads bytes with [surrogateescape]; it is no digit and no
    character of the format. *)
Definition one_byte (c0 : ascii) : N :=
  let b0 := N_of_ascii c0 in
  if (b0 <? 128)%N then b0 else (56320 + b0)%N.

(** The characters of a text. *)
Fixpoint code_points (s : text) : chars :=
  match s with
  | [] => []
  | c0 :: s0 =>
      let single := one_byte c0 :: code_points s0 in
      match s0 with
      | [] => single
      | c1 :: s1 =>
          match two_bytes c0 c1 with
          | Some cp => cp :: code_points s1
          | None =>
              match s1 with
              | [] => single
              | c2 :: s2 =>
                  match three_bytes c0 c1 c2 with
                  | Some cp => cp :: code_points s2
                  | None =>
                      match s2 with
                      | [] => single
                      | c3 :: s3 =>
                          match four_bytes c0 c1 c2 c3 with
                          | Some cp => cp :: code_points s3
                          | None => single
                          end
                      end
                  end
              end
          end
      end
  end.

(** A regular expression as the backtracking matcher Python's [re] runs:
    all the ways to match a prefix of the input, in the order in which they
    are tried, each with the characters matched and the characters left. *)
Definition regex := chars -> list (chars * chars).

(** [[lo-hi]] between two ASCII characters, and one ASCII character. *)
Definition in_range (lo hi : ascii) (c : N) : bool :=
  (N_of_ascii lo <=? c)%N && (c <=? N_of_ascii hi)%N.

Definition is_char (a : ascii) (c : N) : bool := (c =? N_of_ascii a)%N.

Definition range (lo hi : ascii) : regex := fun s =>
  match s with
  | c :: r => if in_range lo hi c then [([c], r)] else []
  | [] => []
  end.

Definition chr (a : ascii) : regex := range a a.

Definition seq (a b : regex) : regex := fun s =>
  '(m1, r1) ← a s; '(m2, r2) ← b r1; [(m1 ++ m2, r2)].

Definition alt (a b : regex) : regex := fun s => a s ++ b s.

(** The digits zero of Unicode 14.0, the character database of CPython
    3.11: the characters whose decimal value is 0.  The digits one to nine
    of a script follow its zero. *)
Definition decimal_zeros : list N :=
  [48; 1632; 1776; 1984; 2406; 2534; 2662; 2790; 2918; 3046; 3174; 3302;
   3430; 3558; 3664; 3792; 3872; 4160; 4240; 6112; 6160; 6470; 6608; 6784;
   6800; 6992; 7088; 7232; 7248; 42528; 43216; 43264; 43472; 43504; 43600;
   44016; 65296; 66720; 68912; 69734; 69872; 69942; 70096; 70384; 70736;
   70864; 71248; 71360; 71472; 71904; 72016; 72784; 73040; 73120; 92768;
   92864; 93008; 120782; 120792; 120802; 120812; 120822; 123200; 123632;
   125264; 130032]%N.

(** [Py_UNICODE_TODECIMAL]: the decimal value of a character that is a
    decimal digit. *)
Definition to_decimal (c : N) : option nat :=
  z ← List.find (fun z => (z <=? c)%N && (c <? z + 10)%N) decimal_zeros;
  Some (N.to_nat (c - z)).

(** [\d] in a [str] pattern: any character that is a decimal digit. *)
Definition is_decimal (c : N) : bool :=
  match to_decimal c with Some _ => true | None => false end.

Definition digit : regex := fun s =>
  match s with
  | c :: r => if is_decimal c then [([c], r)] else []
  | [] => []
  end.

(** ['Y': r"(?P<Y>\d\d\d\d)"] *)
Definition re_Y : regex := seq digit (seq digit (seq digit digit)).

(** ['m': r"(?P<m>1[0-2]|0[1-9]|[1-9])"] *)
Definition re_m : regex :=
  alt (seq (chr "1") (range "0" "2"))
      (alt (seq (chr "0") (range "1" "9")) (range "1" "9")).

(** ['d': r"(?P<d>3[0-1]|[1-2]\d|0[1-9]|[1-9]| [1-9])"] *)
Definition re_d : regex :=
  alt (seq (chr "3") (range "0" "1"))
      (alt (seq (range "1" "2") digit)
           (alt (seq (chr "0") (range "1" "9"))
                (alt (range "1" "9") (seq (chr " ") (range "1" "9"))))).

(** [format_regex.match(data_string)] for the format [%Y-%m-%d]: the
    first way to match the whole pattern, as the groups [Y], [m], [d] and
    the characters after the match. *)
Definition format_regex_match (data_string : chars)
  : option (chars * chars * chars * chars) :=
  head ('(Y, r1) ← re_Y data_string;
        '(_, r2) ← chr "-" r1;
        '(m, r3) ← re_m r2;
        '(_, r4) ← chr "-" r3;
        '(d, r5) ← re_d r4;
        [(Y, m, d, r5)]).

(** [int(s)] on the characters of a group, which are decimal digits, after
    a blank in one form of the day: the blank is ignored, the digits are
    read in base ten, each with its decimal value. *)
Definition digit_value (c : N) : nat := default 0 (to_decimal c).

Definition int (s : chars) : nat :=
  foldl (fun n c => if is_char " " c then n else 10 * n + digit_value c) 0 s.

(** [datetime]: the time of day of a parsed [%Y-%m-%d] deadline is
    always midnight, so a value is its calendar date. *)
Record datetime := { year : nat; month : nat; day : nat }.

Definition is_leap (y : nat) : bool :=
  (y mod 4 =? 0) && (negb (y mod 100 =? 0) || (y mod 400 =? 0)).

Definition days_in_month (y m : nat) : nat :=
  if (m =? 2) && is_leap y then 29
  else nth m [0; 31; 28; 31; 30; 31; 30; 31; 31; 30; 31; 30; 31] 0.

(** [datetime_date(year, month, day)] raises [ValueError] unless
    [MINYEAR <= year <= MAXYEAR], [1 <= month <= 12] and
    [1 <= day <= days_in_month]. *)
Definition check_date_fields (y m d : nat) : bool :=
  (1 <=? y) && (y <=? 9999) && (1 <=? m) && (m <=? 12)
  && (1 <=? d) && (d <=? days_in_month y m).

(** [datetime.strptime(data_string, "%Y-%m-%d")]; [None] is [ValueError]
    (no match, unconverted data remains, or no such date). *)
Definition strptime (data_string : string) : option datetime :=
  match format_regex_match (code_points (list_ascii_of_string data_string)) with
  | None => None
  | Some (Y, m, d, rest) =>
      match rest with
      | _ :: _ => None
      | [] =>
          if check_date_fields (int Y) (int m) (int d)
          then Some {| year := int Y; month := int m; day := int d |}
          else None
      end
  end.

(** [a < b] on [datetime] values. *)
Definition datetime_lt (a b : datetime) : bool :=
  (year a <? year b)
  || ((year a =? year b)
      && ((month a <? month b)
          || ((month a =? month b) && (day a <? day b)))).
End Strptime.

(** ** class JobApplication *)

Inductive exn :=
| ValueError (msg : string)
| KeyError (key : string * string)
| IndexError.

Inductive result (R : Type) :=
| Return (r : R)
| Raise (e : exn).
Arguments Return {R} r.
Arguments Raise {R} e.

Record JobApplication := {
  company : string;
  position : string;
  deadline : Strptime.datetime;
  importance : Z;
  status : string
}.

Definition VALID_STATUSES : list string :=
  ["Pending"; "Processed"; "Interviewing"; "Rejected"]%string.

Definition set_status (s : string) (job : JobApplication) : JobApplication :=
  {| company := company job; position := position job;
     deadline := deadline job; importance := importance job; status := s |}.

(** [JobApplication.__init__] *)
Definition JobApplication_init (company position deadline : string)
    (importance : Z) : result JobApplication :=
  match Strptime.strptime deadline with
  | None => Raise (ValueError "Deadline must be in YYYY-MM-DD format.")
  | Some parsed =>
      if decide (importance <= 0)%Z
      then Raise (ValueError "Importance must be a positive integer.")
      else Return {| company := company; position := position;
                     deadline := parsed; importance := importance;
                     status := "Pending" |}
  end.

(** [JobApplication.__lt__] *)
Definition JobApplication_lt (self other : JobApplication) : bool :=
  if decide (importance self = importance other)
  then Strptime.datetime_lt (deadline self) (deadline other)
  else bool_decide (importance self > importance other)%Z.

(** ** class JobTracker *)

(** [objects] is the object store: the identity of a record is its position
    in it.  [job_heap] and [jobs] hold identities. *)
Record JobTracker := {
  objects : list JobApplication;
  job_heap : list nat;
  jobs : gmap (string * string) nat
}.

(** What a call prints, one event per line. *)
Inductive event :=
| Added (company position deadline : string) (importance : Z)
| Error (msg : string)
| NoPending
| Processing (job : JobApplication)
| PendingHeader
| PendingLine (job : JobApplication)
| NotFound (company position : string)
| InvalidStatus
| Updated (company position new_status : string).

(** [a < b] between two objects of the store.  Identities held by a tracker
    are always allocated ([inv_alloc] below); an identity outside the store,
    which no run produces, is put before the allocated ones, so that the
    comparison is a strict weak order on all identities. *)
Definition object_lt (objects : list JobApplication) (a b : nat) : bool :=
  match objects !! a, objects !! b with
  | Some x, Some y => JobApplication_lt x y
  | None, Some _ => true
  | _, None => false
  end.

(** [JobTracker.__init__] *)
Definition JobTracker_init : JobTracker :=
  {| objects := []; job_heap := []; jobs := ∅ |}.

(** [JobTracker.add_application] *)
Definition add_application (self : JobTracker)
    (company position deadline : string) (importance : Z)
    : JobTracker * list event * result unit :=
  match JobApplication_init company position deadline importance with
  | Return job =>
      let id := length (objects self) in
      let objects' := objects self ++ [job] in
      match Heapq.heappush (object_lt objects') (job_heap self) id with
      | Some heap' =>
          ({| objects := objects'; job_heap := heap';
              jobs := <[(company, position) := id]> (jobs self) |},
           [Added company position deadline importance], Return tt)
      | None =>
          ({| objects := objects'; job_heap := job_heap self ++ [id];
              jobs := jobs self |}, [], Raise IndexError)
      end
  | Raise (ValueError e) => (self, [Error e], Return tt)
  | Raise e => (self, [], Raise e)
  end.

(** [JobTracker.process_next_application]; the record returned is given by
    its identity. *)
Definition process_next_application (self : JobTracker)
    : JobTracker * list event * result (option nat) :=
  match job_heap self with
  | [] => (self, [NoPending], Return None)
  | _ :: _ =>
      match Heapq.heappop (object_lt (objects self)) (job_heap self) with
      | None => (self, [], Raise IndexError)
      | Some (job, heap') =>
          let objects' := alter (set_status "Processed") job (objects self) in
          match objects' !! job with
          | None => (self, [], Raise IndexError)
          | Some r =>
              let key := (company r, position r) in
              match jobs self !! key with
              | None =>
                  ({| objects := objects'; job_heap := heap';
                      jobs := jobs self |}, [], Raise (KeyError key))
              | Some _ =>
                  ({| objects := objects'; job_heap := heap';
                      jobs := delete key (jobs self) |},
                   [Processing r], Return (Some job))
              end
          end
      end
  end.

(** [sorted(l)]: Python's sort is stable and compares with [<] only.  An
    item goes after every item that is not greater than it. *)
Fixpoint sorted_insert {A} (lt : A -> A -> bool) (x : A) (l : list A) : list A :=
  match l with
  | [] => [x]
  | y :: l' => if lt x y then x :: l else y :: sorted_insert lt x l'
  end.

Definition sorted {A} (lt : A -> A -> bool) (l : list A) : list A :=
  foldl (fun acc x => sorted_insert lt x acc) [] l.

(** [JobTracker.view_pending_applications] *)
Definition view_pending_applications (self : JobTracker)
    : JobTracker * list event * result unit :=
  match job_heap self with
  | [] => (self, [NoPending], Return tt)
  | _ :: _ =>
      (self,
       PendingHeader ::
         omap (fun job => PendingLine <$> objects self !! job)
              (sorted (object_lt (objects self)) (job_heap self)),
       Return tt)
  end.

(** [JobTracker.update_status] *)
Definition update_status (self : JobTracker)
    (company position new_status : string)
    : JobTracker * list event * result unit :=
  match jobs self !! (company, position) with
  | None => (self, [NotFound company position], Return tt)
  | Some job =>
      if decide (new_status ∈ VALID_STATUSES)
      then ({| objects := alter (set_status new_status) job (objects self);
               job_heap := job_heap self; jobs := jobs self |},
            [Updated company position new_status], Return tt)
      else (self, [InvalidStatus], Return tt)
  end.

(** ** Sequences of calls *)

Inductive call :=
| Add (company position deadline : string) (importance : Z)
| ProcessNext
| ViewPending
| UpdateStatus (company position new_status : string).

(** What a call gives back to its caller: what it printed and what it
    returned or raised ([process_next_application] returns a record or
    [None], the others return nothing). *)
Definition outcome : Type := list event * result (option nat).

Definition no_value (r : result unit) : result (option nat) :=
  match r with Return _ => Return None | Raise e => Raise e end.

Definition step (self : JobTracker) (c : call) : JobTracker * outcome :=
  match c with
  | Add company position deadline importance =>
      let '(t, out, r) := add_application self company position deadline importance in
      (t, (out, no_value r))
  | ProcessNext =>
      let '(t, out, r) := process_next_application self in (t, (out, r))
  | ViewPending =>
      let '(t, out, r) := view_pending_applications self in (t, (out, no_value r))
  | UpdateStatus company position new_status =>
      let '(t, out, r) := update_status self company position new_status in
      (t, (out, no_value r))
  end.

(** The tracker after a sequence of calls; a caller that catches an
    exception goes on with the tracker as the failed call left it. *)
Definition run (calls : list call) (self : JobTracker) : JobTracker :=
  foldl (fun t c => fst (step t c)) self calls.

(** The outcomes of a sequence of calls, in order. *)
Fixpoint outcomes (calls : list call) (self : JobTracker) : list outcome :=
  match calls with
  | [] => []
  | c :: calls' => snd (step self c) :: outcomes calls' (fst (step self c))
  end.


(** * Specification vocabulary *)

(** ** Heap order *)

Section HeapOrder.
Context {A : Type} (lt : A -> A -> bool).

(** [(i - 1) >> 1] *)
Definition parent (i : nat) : nat := Nat.shiftr (i - 1) 1.

(** No item is smaller than its parent. *)
Definition heap_ordered (h : list A) : Prop :=
  forall i x p, 0 < i -> h !! i = Some x -> h !! parent i = Some p ->
    lt x p = false.

(** The heap order holds everywhere but around the position [pos], whose
    content is about to be overwritten: the children of [pos] are compared
    with the parent of [pos] instead. *)
Definition hole_ordered (h : list A) (pos : nat) : Prop :=
  (forall i x p, 0 < i -> i <> pos -> parent i <> pos ->
     h !! i = Some x -> h !! parent i = Some p -> lt x p = false)
  /\ (forall c x g, 0 < pos -> 0 < c -> parent c = pos ->
        h !! c = Some x -> h !! parent pos = Some g -> lt x g = false).

(** No child of [pos] is smaller than [newitem]. *)
Definition fits_above (h : list A) (pos : nat) (newitem : A) : Prop :=
  forall c x, 0 < c -> parent c = pos -> h !! c = Some x -> lt x newitem = false.
End HeapOrder.

(** ** Trackers *)

(** What holds of every tracker that calls can produce: the heap is
    ordered, holds each identity once and only allocated ones, and every
    entry of the index points to a record in the heap that bears the
    entry's key. *)
Record tracker_inv (t : JobTracker) : Prop := {
  inv_ordered : heap_ordered (object_lt (objects t)) (job_heap t);
  inv_nodup : NoDup (job_heap t);
  inv_alloc : forall id, id ∈ job_heap t -> id < length (objects t);
  inv_index : forall k id, jobs t !! k = Some id ->
    id ∈ job_heap t
    /\ exists r, objects t !! id = Some r /\ (company r, position r) = k
}.

(** The key of a record in the index. *)
Definition key_of (r : JobApplication) : string * string :=
  (company r, position r).

(** Every record in the heap is the one the index holds for its key. *)
Definition keys_current (t : JobTracker) : Prop :=
  forall id r, id ∈ job_heap t -> objects t !! id = Some r ->
    jobs t !! key_of r = Some id.

(** The pairs that a sequence of calls adds: those of the
    [add_application] calls whose record is constructed. *)
Fixpoint added_pairs (calls : list call) : list (string * string) :=
  match calls with
  | [] => []
  | Add c p d i :: calls' =>
      match JobApplication_init c p d i with
      | Return _ => (c, p) :: added_pairs calls'
      | Raise _ => added_pairs calls'
      end
  | _ :: calls' => added_pairs calls'
  end.

(** No record in the heap bears a pair that the calls are going to add. *)
Definition pending_keys_fresh (t : JobTracker) (calls : list call) : Prop :=
  forall id r, id ∈ job_heap t -> objects t !! id = Some r ->
    key_of r ∉ added_pairs calls.

(** As many successive calls to [process_next_application] as there are
    records in the heap. *)
Definition process_all (t : JobTracker) : list outcome :=
  outcomes (replicate (length (job_heap t)) ProcessNext) t.

(** The identities of the pending records in the order in which
    [view_pending_applications] prints them. *)
Definition pending_order (t : JobTracker) : list nat :=
  sorted (object_lt (objects t)) (job_heap t).

(** ** Concrete runs *)

(** The example scenario, followed by one call that processes a record. *)
Definition scenario : list call :=
  [Add "Acme" "Eng" "2025-06-01" 5; Add "Globex" "PM" "2025-05-01" 5;
   Add "Initech" "Ops" "2025-06-01" 8; ProcessNext]%string.

(** The same pair added twice, then both records processed. *)
Definition duplicate_calls : list call :=
  [Add "Acme" "Eng" "2025-06-01" 5; Add "Acme" "Eng" "2025-07-01" 3;
   ProcessNext; ProcessNext]%string.

(** A pair added twice and another pair added once: record 0 is stale,
    records 1 and 2 are the current ones of their pairs. *)
Definition stale_then_two : list call :=
  [Add "Acme" "Eng" "2025-06-01" 9; Add "Acme" "Eng" "2025-06-01" 5;
   Add "Globex" "PM" "2025-06-01" 3]%string.

Definition stale_then_tie : list call :=
  [Add "Acme" "Eng" "2025-06-01" 9; Add "Acme" "Eng" "2025-05-01" 5;
   Add "Globex" "PM" "2025-06-01" 5]%string.

Definition deadline_error : exn :=
  ValueError "Deadline must be in YYYY-MM-DD format.".

(** The three records of the example scenario. *)
Definition acme : JobApplication :=
  {| company := "Acme"; position := "Eng";
     deadline := {| Strptime.year := 2025; Strptime.month := 6; Strptime.day := 1 |};
     importance := 5; status := "Pending" |}.

Definition globex : JobApplication :=
  {| company := "Globex"; position := "PM";
     deadline := {| Strptime.year := 2025; Strptime.month := 5; Strptime.day := 1 |};
     importance := 5; status := "Pending" |}.

Definition initech : JobApplication :=
  {| company := "Initech"; position := "Ops";
     deadline := {| Strptime.year := 2025; Strptime.month := 6; Strptime.day := 1 |};
     importance := 8; status := "Pending" |}.

(** ** Deadline strings *)

(** The strict form in the words of the specification: four-digit year,
    hyphen, two-digit month, hyphen, two-digit day, the digits being [0]
    to [9]. *)
Definition strict_form (s : string) : bool :=
  match Strptime.code_points (list_ascii_of_string s) with
  | [y1; y2; y3; y4; h1; m1; m2; h2; d1; d2] =>
      forallb (Strptime.in_range "0" "9") [y1; y2; y3; y4; m1; m2; d1; d2]
      && Strptime.is_char "-" h1 && Strptime.is_char "-" h2
  | _ => false
  end.

(** The hyphen of the format. *)
Definition hyphen : N := N_of_ascii "-".

(** The characters that the groups of the format accept.  A year is four
    decimal digits, of any script.  A month is [1] to [9], [01] to [09] or
    [10] to [12].  A day is [1] to [9], [01] to [09], [30], [31], a blank
    and [1] to [9], or [1] or [2] and a decimal digit of any script. *)
Definition is_year_text (ys : Strptime.chars) : bool :=
  match ys with
  | [a; b; c; d] => forallb Strptime.is_decimal [a; b; c; d]
  | _ => false
  end.

Definition is_month_text (ms : Strptime.chars) : bool :=
  match ms with
  | [a] => Strptime.in_range "1" "9" a
  | [a; b] =>
      (Strptime.is_char "1" a && Strptime.in_range "0" "2" b)
      || (Strptime.is_char "0" a && Strptime.in_range "1" "9" b)
  | _ => false
  end.

Definition is_day_text (ds : Strptime.chars) : bool :=
  match ds with
  | [a] => Strptime.in_range "1" "9" a
  | [a; b] =>
      (Strptime.is_char "3" a && Strptime.in_range "0" "1" b)
      || (Strptime.in_range "1" "2" a && Strptime.is_decimal b)
      || ((Strptime.is_char "0" a || Strptime.is_char " " a)
          && Strptime.in_range "1" "9" b)
  | _ => false
  end.

(** The deadline strings that name a date for [strptime]: the characters
    of a year, a month and a day joined by hyphens, for a day that exists in
    a year from 1 to 9999. *)
Definition names_date (s : string) (dt : Strptime.datetime) : Prop :=
  exists ys ms ds,
    Strptime.code_points (list_ascii_of_string s)
    = ys ++ hyphen :: ms ++ hyphen :: ds
    /\ is_year_text ys = true /\ is_month_text ms = true
    /\ is_day_text ds = true
    /\ Strptime.check_date_fields (Strptime.int ys) (Strptime.int ms)
         (Strptime.int ds) = true
    /\ dt = {| Strptime.year := Strptime.int ys;
               Strptime.month := Strptime.int ms;
               Strptime.day := Strptime.int ds |}.


(** ** Printing a deadline *)

(** [job.deadline.date()] in an f-string prints [date.isoformat()], that
    is ["%04d-%02d-%02d" % (year, month, day)]: each number in base ten,
    with zeros in front up to its width. *)
Definition zero_pad (width : nat) (s : Strptime.text) : Strptime.text :=
  replicate (width - length s) "0"%char ++ s.

(** [%04d] for the year, [%02d] for the month and the day. *)
Definition year_text (y : nat) : Strptime.text :=
  zero_pad 4 (list_ascii_of_string (pretty y)).

Definition field_text (n : nat) : Strptime.text :=
  zero_pad 2 (list_ascii_of_string (pretty n)).

Definition isoformat (d : Strptime.datetime) : string :=
  string_of_list_ascii
    (year_text (Strptime.year d)
     ++ "-"%char :: field_text (Strptime.month d)
     ++ "-"%char :: field_text (Strptime.day d)).

(** The text [s] printed for the field [n] is made of ASCII characters,
    has the form [is_text] of its group and reads back as [n]. *)
Definition prints (is_text : Strptime.chars -> bool) (s : Strptime.text)
    (n : nat) : bool :=
  forallb (fun c => (N_of_ascii c <? 128)%N) s
  && is_text (N_of_ascii <$> s)
  && (Strptime.int (N_of_ascii <$> s) =? n).

(** ** Records of a tracker *)

(** What holds of every record that a tracker allocates. *)
Definition record_ok (r : JobApplication) : Prop :=
  (0 < importance r)%Z
  /\ Strptime.check_date_fields (Strptime.year (deadline r))
       (Strptime.month (deadline r)) (Strptime.day (deadline r)) = true
  /\ status r ∈ VALID_STATUSES.

(** Every stored record is well formed, and a record that has left the
    heap is [Processed]. *)
Definition store_ok (t : JobTracker) : Prop :=
  forall id r, objects t !! id = Some r ->
    record_ok r /\ (id ∉ job_heap t -> status r = "Processed"%string).


(** * Facts about heapq *)

Section HeapqFacts.
Context {A : Type} (lt : A -> A -> bool).


Lemma parent_cases i :
  0 < i -> i = 2 * parent i + 1 \/ i = 2 * parent i + 2.
Proof.
  intros Hi. unfold parent. change (Nat.shiftr (i - 1) 1) with (Nat.div2 (i - 1)).
  rewrite Nat.div2_div.
  pose proof (Nat.div_mod_eq (i - 1) 2) as Hd.
  pose proof (Nat.mod_upper_bound (i - 1) 2) as Hm. lia.
Qed.

Lemma parent_lt i : 0 < i -> parent i < i.
Proof. intros Hi. destruct (parent_cases i Hi); lia. Qed.

Lemma parent_child_l i : parent (2 * i + 1) = i.
Proof. pose proof (parent_cases (2 * i + 1)). lia. Qed.

Lemma parent_child_r i : parent (2 * i + 2) = i.
Proof. pose proof (parent_cases (2 * i + 2)). lia. Qed.

Lemma siftdown_loop_unfold (heap : list A) newitem startpos pos :
  Heapq.siftdown_loop lt heap newitem startpos pos =
  if decide (startpos < pos)
  then match heap !! Nat.shiftr (pos - 1) 1 with
       | Some parent =>
           if lt newitem parent
           then match Heapq.setitem heap pos parent with
                | Some heap' =>
                    Heapq.siftdown_loop lt heap' newitem startpos
                      (Nat.shiftr (pos - 1) 1)
                | None => None
                end
           else Heapq.setitem heap pos newitem
       | None => None
       end
  else Heapq.setitem heap pos newitem.
Proof.
  rewrite Heapq.siftdown_loop_equation_1.
  destruct (decide (startpos < pos)); reflexivity.
Qed.

Lemma siftup_loop_unfold (heap : list A) endpos pos childpos :
  Heapq.siftup_loop lt heap endpos pos childpos =
  if decide (childpos < endpos)
  then match Heapq.right_is_smaller lt heap endpos childpos with
       | Some b =>
           match heap !! (if b then childpos + 1 else childpos) with
           | Some child =>
               match Heapq.setitem heap pos child with
               | Some heap' =>
                   Heapq.siftup_loop lt heap' endpos
                     (if b then childpos + 1 else childpos)
                     (2 * (if b then childpos + 1 else childpos) + 1)
               | None => None
               end
           | None => None
           end
       | None => None
       end
  else Some (heap, pos).
Proof.
  rewrite Heapq.siftup_loop_equation_1.
  destruct (decide (childpos < endpos)); reflexivity.
Qed.

Lemma setitem_Some (h : list A) pos x :
  pos < length h -> Heapq.setitem h pos x = Some (<[pos := x]> h).
Proof. intros. unfold Heapq.setitem. rewrite decide_True; auto. Qed.

(** Overwriting position [i] trades the old item for the new one. *)
Lemma insert_Permutation (h : list A) i x y :
  h !! i = Some y -> y :: <[i := x]> h ≡ₚ x :: h.
Proof.
  revert i. induction h as [|a h IH]; intros [|i] Hi; simplify_eq/=.
  - apply perm_swap.
  - rewrite (perm_swap a y). rewrite (IH i Hi). apply perm_swap.
Qed.

Hypothesis lt_asym : forall x y, lt x y = true -> lt y x = false.
Hypothesis le_trans :
  forall x y z, lt y x = false -> lt z y = false -> lt z x = false.

(** [_siftdown] towards the root puts [newitem] in place. *)
Lemma siftdown_loop_spec pos :
  forall h newitem hole,
    h !! pos = Some hole -> hole_ordered lt h pos -> fits_above lt h pos newitem ->
    exists h', Heapq.siftdown_loop lt h newitem 0 pos = Some h'
               /\ heap_ordered lt h' /\ hole :: h' ≡ₚ newitem :: h.
Proof.
  induction pos as [pos IH] using lt_wf_ind.
  intros h newitem hole Hpos [Hord Hgrand] Hfit.
  pose proof (lookup_lt_Some _ _ _ Hpos) as Hlen.
  rewrite siftdown_loop_unfold.
  assert (Hstop : (pos = 0 \/ exists par, h !! parent pos = Some par /\ lt newitem par = false) ->
            heap_ordered lt (<[pos := newitem]> h)).
  { intros Hcase i x p Hi Hx Hp.
    destruct (decide (i = pos)) as [->|Hne].
    - rewrite list_lookup_insert_eq in Hx by done. injection Hx as <-.
      rewrite list_lookup_insert_ne in Hp by (pose proof (parent_lt pos); lia).
      destruct Hcase as [?|(par & Hpar & Hlt)]; [lia|]. congruence.
    - rewrite list_lookup_insert_ne in Hx by done.
      destruct (decide (parent i = pos)) as [Hpi|Hpi].
      + rewrite Hpi, list_lookup_insert_eq in Hp by done. injection Hp as <-.
        eapply Hfit; eauto.
      + rewrite list_lookup_insert_ne in Hp by done. eapply Hord; eauto. }
  destruct (decide (0 < pos)) as [Hgt|Hle].
  - fold (parent pos).
    destruct (lookup_lt_is_Some_2 h (parent pos)) as [par Hpar];
      [pose proof (parent_lt pos Hgt); lia|].
    rewrite Hpar. destruct (lt newitem par) eqn:Hlt.
    + rewrite setitem_Some by done.
      assert (Hne : pos <> parent pos) by (pose proof (parent_lt pos Hgt); lia).
      destruct (IH (parent pos) (parent_lt pos Hgt) (<[pos := par]> h) newitem par)
        as (h' & Hrun & Hho & Hperm).
      * rewrite list_lookup_insert_ne by done. done.
      * split.
        -- intros i x p Hi Hi1 Hi2 Hx Hp.
           destruct (decide (i = pos)) as [->|Hipos]; [done|].
           rewrite list_lookup_insert_ne in Hx by done.
           destruct (decide (parent i = pos)) as [Hpi|Hpi].
           ++ rewrite Hpi, list_lookup_insert_eq in Hp by done. injection Hp as <-.
              eapply Hgrand; eauto.
           ++ rewrite list_lookup_insert_ne in Hp by done. eapply Hord; eauto.
        -- intros c x g Hpp Hc Hcp Hx Hg.
           rewrite list_lookup_insert_ne in Hg
             by (pose proof (parent_lt (parent pos) Hpp);
                 pose proof (parent_lt pos Hgt); lia).
           assert (Hparg : lt par g = false).
           { eapply (Hord (parent pos)); eauto;
               pose proof (parent_lt (parent pos) Hpp);
               pose proof (parent_lt pos Hgt); lia. }
           destruct (decide (c = pos)) as [->|Hcpos].
           ++ rewrite list_lookup_insert_eq in Hx by done. injection Hx as <-. done.
           ++ rewrite list_lookup_insert_ne in Hx by done.
              eapply le_trans; [apply Hparg|].
              eapply (Hord c); eauto. lia. congruence.
      * intros c x Hc Hcp Hx.
        destruct (decide (c = pos)) as [->|Hcpos].
        -- rewrite list_lookup_insert_eq in Hx by done. injection Hx as <-.
           by apply lt_asym.
        -- rewrite list_lookup_insert_ne in Hx by done.
           eapply le_trans; [apply lt_asym, Hlt|].
           eapply (Hord c); eauto. lia. congruence.
      * exists h'. split; [done|]. split; [done|].
        apply (Permutation_cons_inv (a := par)).
        rewrite (perm_swap hole par), Hperm.
        rewrite (perm_swap newitem par), (perm_swap newitem hole). f_equiv.
        by apply insert_Permutation.
    + rewrite setitem_Some by done. eexists. split; [done|]. split.
      * apply Hstop. right. eauto.
      * by apply insert_Permutation.
  - rewrite setitem_Some by done. eexists. split; [done|]. split.
    + apply Hstop. left. lia.
    + by apply insert_Permutation.
Qed.

Lemma hole_ordered_insert h pos x :
  hole_ordered lt h pos -> hole_ordered lt (<[pos := x]> h) pos.
Proof.
  intros [Hord Hgrand]. split.
  - intros i y p Hi Hi1 Hi2 Hy Hp.
    rewrite list_lookup_insert_ne in Hy by done.
    rewrite list_lookup_insert_ne in Hp by done. eauto.
  - intros c y g Hpos Hc Hcp Hy Hg.
    pose proof (parent_lt c Hc). pose proof (parent_lt pos Hpos).
    rewrite list_lookup_insert_ne in Hy by lia.
    rewrite list_lookup_insert_ne in Hg by lia. eauto.
Qed.

(** The first loop of [_siftup] walks the hole down to a leaf. *)
Lemma siftup_loop_spec n :
  forall h endpos pos hole,
    endpos - (2 * pos + 1) = n -> endpos = length h ->
    h !! pos = Some hole -> hole_ordered lt h pos ->
    exists h1 pos1 hole1,
      Heapq.siftup_loop lt h endpos pos (2 * pos + 1) = Some (h1, pos1)
      /\ h1 !! pos1 = Some hole1 /\ hole_ordered lt h1 pos1
      /\ length h1 <= 2 * pos1 + 1 /\ hole :: h1 ≡ₚ hole1 :: h.
Proof.
  induction n as [n IH] using lt_wf_ind.
  intros h endpos pos hole Hn Hend Hpos [Hord Hgrand].
  pose proof (lookup_lt_Some _ _ _ Hpos) as Hlen.
  rewrite siftup_loop_unfold.
  destruct (decide (2 * pos + 1 < endpos)) as [Hchild|Hleaf]; cycle 1.
  { exists h, pos, hole. repeat split; auto. lia. }
  destruct (lookup_lt_is_Some_2 h (2 * pos + 1)) as [c Hc]; [lia|].
  assert (Hsmall : exists b child,
            Heapq.right_is_smaller lt h endpos (2 * pos + 1) = Some b
            /\ h !! (if b then 2 * pos + 1 + 1 else 2 * pos + 1) = Some child
            /\ forall i x, i <> (if b then 2 * pos + 1 + 1 else 2 * pos + 1) ->
                 0 < i -> parent i = pos -> h !! i = Some x -> lt x child = false).
  { unfold Heapq.right_is_smaller.
    destruct (decide (2 * pos + 1 + 1 < endpos)) as [Hr|Hr].
    - destruct (lookup_lt_is_Some_2 h (2 * pos + 1 + 1)) as [r Hrr]; [lia|].
      rewrite Hc, Hrr. destruct (lt c r) eqn:Hcr; simpl.
      + exists false, c. repeat split; auto. intros i x Hi Hi0 Hip Hx.
        destruct (parent_cases i Hi0) as [Hi'|Hi']; rewrite Hip in Hi'; [lia|].
        replace i with (2 * pos + 1 + 1) in Hx by lia.
        rewrite Hrr in Hx. injection Hx as <-. by apply lt_asym.
      + exists true, r. repeat split; auto. intros i x Hi Hi0 Hip Hx.
        destruct (parent_cases i Hi0) as [Hi'|Hi']; rewrite Hip in Hi'; [|lia].
        replace i with (2 * pos + 1) in Hx by lia.
        rewrite Hc in Hx. by injection Hx as <-.
    - exists false, c. repeat split; auto. intros i x Hi Hi0 Hip Hx.
      pose proof (lookup_lt_Some _ _ _ Hx).
      destruct (parent_cases i Hi0) as [Hi'|Hi']; rewrite Hip in Hi'; lia. }
  destruct Hsmall as (b & child & -> & Hchildv & Hsib).
  set (cpos := if b then 2 * pos + 1 + 1 else 2 * pos + 1) in *.
  assert (Hcpar : parent cpos = pos).
  { destruct b; subst cpos; [|apply parent_child_l].
    replace (2 * pos + 1 + 1) with (2 * pos + 2) by lia. apply parent_child_r. }
  assert (Hcgt : pos < cpos) by (destruct b; subst cpos; lia).
  pose proof (lookup_lt_Some _ _ _ Hchildv) as Hclen.
  rewrite Hchildv, setitem_Some by done.
  destruct (IH (endpos - (2 * cpos + 1)) ltac:(lia) (<[pos := child]> h)
              endpos cpos child) as (h1 & pos1 & hole1 & Hrun & Hh1 & Hho & Hleaf & Hperm).
  - done.
  - by rewrite length_insert.
  - rewrite list_lookup_insert_ne by lia. done.
  - split.
    + intros i x p Hi Hi1 Hi2 Hx Hp.
      destruct (decide (i = pos)) as [->|Hipos].
      * rewrite list_lookup_insert_eq in Hx by done. injection Hx as <-.
        rewrite list_lookup_insert_ne in Hp by (pose proof (parent_lt pos Hi); lia).
        eapply (Hgrand cpos); eauto. lia.
      * rewrite list_lookup_insert_ne in Hx by done.
        destruct (decide (parent i = pos)) as [Hpi|Hpi].
        -- rewrite Hpi, list_lookup_insert_eq in Hp by done. injection Hp as <-.
           by apply (Hsib i x).
        -- rewrite list_lookup_insert_ne in Hp by done. eapply Hord; eauto.
    + intros c' x g Hcp Hc' Hc'p Hx Hg.
      rewrite Hcpar, list_lookup_insert_eq in Hg by done. injection Hg as <-.
      pose proof (parent_lt c' Hc').
      rewrite list_lookup_insert_ne in Hx by lia.
      eapply (Hord c'); eauto; try lia. by rewrite Hc'p.
  - exists h1, pos1, hole1. split; [done|]. split; [done|]. split; [done|].
    split; [done|].
    apply (Permutation_cons_inv (a := child)).
    rewrite (perm_swap hole child), Hperm.
    rewrite (perm_swap hole1 child), (perm_swap hole1 hole). f_equiv.
    by apply insert_Permutation.
Qed.

(** [_siftup(heap, 0)] restores the heap order below a root that was
    overwritten. *)
Lemma siftup_spec h :
  h <> [] -> hole_ordered lt h 0 ->
  exists h', Heapq._siftup lt h 0 = Some h' /\ heap_ordered lt h' /\ h' ≡ₚ h.
Proof.
  intros Hne Hho. destruct h as [|newitem t] eqn:Hh; [done|]. rewrite <- Hh in *.
  assert (Hroot : h !! 0 = Some newitem) by (by subst h).
  unfold Heapq._siftup. rewrite Hroot.
  destruct (siftup_loop_spec _ h (length h) 0 newitem eq_refl eq_refl Hroot Hho)
    as (h1 & pos1 & hole1 & Hrun & Hh1 & Hho1 & Hleaf & Hperm).
  change (2 * 0 + 1) with 1 in Hrun. simpl (2 * 0 + 1). rewrite Hrun.
  pose proof (lookup_lt_Some _ _ _ Hh1) as Hlen1.
  rewrite setitem_Some by done.
  unfold Heapq._siftdown. rewrite list_lookup_insert_eq by done.
  destruct (siftdown_loop_spec pos1 (<[pos1 := newitem]> h1) newitem newitem)
    as (h' & Hrun' & Hord' & Hperm').
  - by rewrite list_lookup_insert_eq.
  - by apply hole_ordered_insert.
  - intros c x Hc Hcp Hx. pose proof (lookup_lt_Some _ _ _ Hx) as Hclen.
    rewrite length_insert in Hclen.
    destruct (parent_cases c Hc); lia.
  - exists h'. split; [done|]. split; [done|].
    apply Permutation_cons_inv in Hperm'. rewrite Hperm'.
    apply (Permutation_cons_inv (a := hole1)).
    rewrite (insert_Permutation h1 pos1 newitem hole1 Hh1). done.
Qed.

(** The root of an ordered heap is a least item. *)
Lemma heap_ordered_root h root :
  heap_ordered lt h -> h !! 0 = Some root ->
  forall i x, h !! i = Some x -> lt x root = false.
Proof.
  intros Hord Hroot i. induction i as [i IH] using lt_wf_ind. intros x Hx.
  destruct (decide (i = 0)) as [->|Hi].
  - rewrite Hroot in Hx. injection Hx as <-.
    destruct (lt root root) eqn:E; [|done]. by rewrite (lt_asym _ _ E) in E.
  - pose proof (parent_lt i ltac:(lia)) as Hp.
    destruct (lookup_lt_is_Some_2 h (parent i)) as [p Hpv];
      [pose proof (lookup_lt_Some _ _ _ Hx); lia|].
    eapply le_trans; [eapply (IH (parent i)); eauto|].
    eapply (Hord i); eauto. lia.
Qed.

(** [heappush] never raises, keeps the heap order and adds the item. *)
Lemma heappush_spec h item :
  heap_ordered lt h ->
  exists h', Heapq.heappush lt h item = Some h'
             /\ heap_ordered lt h' /\ h' ≡ₚ item :: h.
Proof.
  intros Hord. unfold Heapq.heappush, Heapq._siftdown.
  rewrite length_app. simpl. replace (length h + 1 - 1) with (length h) by lia.
  assert (Hlast : (h ++ [item]) !! length h = Some item).
  { rewrite lookup_app_r by lia. by rewrite Nat.sub_diag. }
  rewrite Hlast.
  destruct (siftdown_loop_spec (length h) (h ++ [item]) item item Hlast)
    as (h' & Hrun & Hord' & Hperm).
  - split.
    + intros i x p Hi Hi1 Hi2 Hx Hp.
      pose proof (lookup_lt_Some _ _ _ Hx) as Hil. rewrite length_app in Hil.
      simpl in Hil. pose proof (parent_lt i Hi).
      rewrite lookup_app_l in Hx by lia. rewrite lookup_app_l in Hp by lia.
      eauto.
    + intros c x g Hpos Hc Hcp Hx Hg.
      pose proof (lookup_lt_Some _ _ _ Hx) as Hcl. rewrite length_app in Hcl.
      simpl in Hcl. pose proof (parent_lt c Hc). lia.
  - intros c x Hc Hcp Hx.
    pose proof (lookup_lt_Some _ _ _ Hx) as Hcl. rewrite length_app in Hcl.
    simpl in Hcl. pose proof (parent_lt c Hc). lia.
  - exists h'. split; [done|]. split; [done|].
    apply Permutation_cons_inv in Hperm. rewrite Hperm.
    by rewrite Permutation_app_comm.
Qed.

(** [heappop] on a non-empty ordered heap never raises, returns a least
    item, and leaves an ordered heap of the other items. *)
Lemma heappop_spec h :
  h <> [] -> heap_ordered lt h ->
  exists x h', Heapq.heappop lt h = Some (x, h')
               /\ heap_ordered lt h' /\ h ≡ₚ x :: h'
               /\ forall y, y ∈ h -> lt y x = false.
Proof.
  intros Hne Hord. unfold Heapq.heappop.
  destruct (proj2 (last_is_Some h) Hne) as [lastelt Hlast]. rewrite Hlast.
  apply last_Some in Hlast as [t ->]. rewrite removelast_last.
  destruct t as [|root t].
  - exists lastelt, []. split; [done|]. split; [by intros [|i] ???; simplify_eq/=|].
    split; [done|]. intros y Hy. apply list_elem_of_singleton in Hy as ->.
    destruct (lt lastelt lastelt) eqn:E; [|done]. by rewrite (lt_asym _ _ E) in E.
  - rewrite setitem_Some by (simpl; lia). simpl.
    destruct (siftup_spec (lastelt :: t)) as (h' & Hrun & Hord' & Hperm); [done| |].
    + split; [|intros; lia].
      intros i x p Hi Hi1 Hi2 Hx Hp. destruct i as [|i]; [lia|].
      pose proof (parent_lt (S i) Hi).
      destruct (parent (S i)) as [|j] eqn:Hj; [done|]. simpl in Hx, Hp.
      pose proof (lookup_lt_Some _ _ _ Hx). 
      apply (Hord (S i) x p Hi).
      * simpl. by rewrite lookup_app_l.
      * rewrite Hj. simpl. rewrite lookup_app_l by lia. done.
    + rewrite Hrun. exists root, h'. split; [done|]. split; [done|]. split.
      * rewrite Hperm. simpl. f_equiv.
        by rewrite Permutation_app_comm.
      * intros y Hy. apply list_elem_of_lookup in Hy as [i Hi].
        by apply (heap_ordered_root _ root Hord eq_refl i).
Qed.
End HeapqFacts.

(** * Facts about the comparator *)

Lemma datetime_lt_spec (a b : Strptime.datetime) :
  Strptime.datetime_lt a b = true <->
  Strptime.year a < Strptime.year b
  \/ (Strptime.year a = Strptime.year b
      /\ (Strptime.month a < Strptime.month b
          \/ (Strptime.month a = Strptime.month b
              /\ Strptime.day a < Strptime.day b))).
Proof.
  unfold Strptime.datetime_lt.
  rewrite !orb_true_iff, !andb_true_iff, !orb_true_iff, !andb_true_iff,
    !Nat.ltb_lt, !Nat.eqb_eq. tauto.
Qed.

Lemma JobApplication_lt_spec (a b : JobApplication) :
  JobApplication_lt a b = true <->
  (importance a > importance b)%Z
  \/ (importance a = importance b
      /\ Strptime.datetime_lt (deadline a) (deadline b) = true).
Proof.
  unfold JobApplication_lt. destruct (decide (importance a = importance b)).
  - split; [auto|]. intros [?|[_ ?]]; [lia|done].
  - rewrite bool_decide_eq_true. split; [auto|]. intros [?|[? _]]; done.
Qed.

Lemma JobApplication_lt_irrefl (a : JobApplication) : JobApplication_lt a a = false.
Proof.
  apply not_true_iff_false. rewrite JobApplication_lt_spec, datetime_lt_spec. lia.
Qed.

Lemma JobApplication_lt_asym (a b : JobApplication) :
  JobApplication_lt a b = true -> JobApplication_lt b a = false.
Proof.
  intros H. apply not_true_iff_false. revert H.
  rewrite !JobApplication_lt_spec, !datetime_lt_spec. lia.
Qed.

Lemma JobApplication_lt_trans (a b c : JobApplication) :
  JobApplication_lt a b = true -> JobApplication_lt b c = true ->
  JobApplication_lt a c = true.
Proof. rewrite !JobApplication_lt_spec, !datetime_lt_spec. lia. Qed.

(** "Not greater than" is transitive. *)
Lemma JobApplication_le_trans (x y z : JobApplication) :
  JobApplication_lt y x = false -> JobApplication_lt z y = false ->
  JobApplication_lt z x = false.
Proof.
  rewrite <- !not_true_iff_false, !JobApplication_lt_spec, !datetime_lt_spec. lia.
Qed.

Lemma object_lt_asym objs (a b : nat) :
  object_lt objs a b = true -> object_lt objs b a = false.
Proof.
  unfold object_lt. destruct (objs !! a), (objs !! b); try done.
  apply JobApplication_lt_asym.
Qed.

Lemma object_le_trans objs (x y z : nat) :
  object_lt objs y x = false -> object_lt objs z y = false ->
  object_lt objs z x = false.
Proof.
  unfold object_lt. destruct (objs !! x), (objs !! y), (objs !! z); try done.
  apply JobApplication_le_trans.
Qed.

(** The comparator does not read the status. *)
Lemma JobApplication_lt_set_status s1 s2 (a b : JobApplication) :
  JobApplication_lt (set_status s1 a) (set_status s2 b) = JobApplication_lt a b.
Proof. reflexivity. Qed.

Lemma object_lt_alter_status objs s id (a b : nat) :
  object_lt (alter (set_status s) id objs) a b = object_lt objs a b.
Proof.
  unfold object_lt. rewrite !list_lookup_alter.
  destruct (decide (id = a)), (decide (id = b)); subst;
    repeat match goal with |- context [objs !! ?i] => destruct (objs !! i) end;
    reflexivity.
Qed.

Lemma object_lt_alloc objs job (a b : nat) :
  a < length objs -> b < length objs ->
  object_lt (objs ++ [job]) a b = object_lt objs a b.
Proof. intros Ha Hb. unfold object_lt. by rewrite !lookup_app_l. Qed.

(** * The invariant of a tracker *)


Lemma heap_ordered_ext {A} (lt1 lt2 : A -> A -> bool) (h : list A) :
  (forall x y, x ∈ h -> y ∈ h -> lt1 x y = lt2 x y) ->
  heap_ordered lt1 h -> heap_ordered lt2 h.
Proof.
  intros Hext Hord i x p Hi Hx Hp.
  rewrite <- Hext by (eapply list_elem_of_lookup_2; eauto). eauto.
Qed.

Lemma JobApplication_init_Return c p d i job :
  JobApplication_init c p d i = Return job ->
  company job = c /\ position job = p /\ importance job = i
  /\ status job = "Pending"%string
  /\ Strptime.strptime d = Some (deadline job) /\ (0 < i)%Z.
Proof.
  unfold JobApplication_init. destruct (Strptime.strptime d); [|done].
  destruct (decide (i <= 0)%Z); [done|]. intros [= <-]. simpl.
  repeat split; auto. lia.
Qed.

Lemma JobApplication_init_Raise c p d i e :
  JobApplication_init c p d i = Raise e -> exists msg, e = ValueError msg.
Proof.
  unfold JobApplication_init. destruct (Strptime.strptime d);
    [destruct (decide (i <= 0)%Z)|]; intros [= <-]; eauto.
Qed.

(** A successful [add_application]: the new record gets the next identity,
    is pushed on the heap and registered under its key. *)
Lemma add_application_Return t c p d i job :
  tracker_inv t -> JobApplication_init c p d i = Return job ->
  exists heap',
    add_application t c p d i =
      ({| objects := objects t ++ [job]; job_heap := heap';
          jobs := <[(c, p) := length (objects t)]> (jobs t) |},
       [Added c p d i], Return tt)
    /\ heap' ≡ₚ length (objects t) :: job_heap t
    /\ heap_ordered (object_lt (objects t ++ [job])) heap'.
Proof.
  intros Hinv Hjob. unfold add_application. rewrite Hjob.
  destruct (heappush_spec (object_lt (objects t ++ [job]))
              (object_lt_asym _) (object_le_trans _)
              (job_heap t) (length (objects t))) as (h' & -> & Hord & Hperm).
  - eapply heap_ordered_ext; [|apply (inv_ordered _ Hinv)].
    intros x y Hx Hy. symmetry. apply object_lt_alloc; by apply (inv_alloc _ Hinv).
  - by exists h'.
Qed.

Lemma add_application_Raise t c p d i e :
  JobApplication_init c p d i = Raise e ->
  exists msg, e = ValueError msg
    /\ add_application t c p d i = (t, [Error msg], Return tt).
Proof.
  intros Hjob. destruct (JobApplication_init_Raise _ _ _ _ _ Hjob) as [msg ->].
  exists msg. split; [done|]. unfold add_application. by rewrite Hjob.
Qed.

Lemma add_application_inv t c p d i :
  tracker_inv t -> tracker_inv (add_application t c p d i).1.1.
Proof.
  intros Hinv. destruct (JobApplication_init c p d i) as [job|e] eqn:Hjob.
  - destruct (add_application_Return t c p d i job Hinv Hjob) as (h' & -> & Hperm & Hord).
    simpl. destruct (JobApplication_init_Return _ _ _ _ _ Hjob) as (Hc & Hp & _).
    split; simpl.
    + done.
    + rewrite Hperm. constructor; [|apply (inv_nodup _ Hinv)].
      intros Hin. apply (inv_alloc _ Hinv) in Hin. lia.
    + intros id. rewrite Hperm, length_app, elem_of_cons. simpl.
      intros [->|Hin]; [lia|]. apply (inv_alloc _ Hinv) in Hin. lia.
    + intros k id. rewrite Hperm. intros Hk.
      apply lookup_insert_Some in Hk as [[<- <-]|[Hne Hk]].
      * split; [left|]. exists job. split; [|by rewrite Hc, Hp].
        rewrite lookup_app_r by lia. by rewrite Nat.sub_diag.
      * destruct (inv_index _ Hinv k id Hk) as (Hin & r & Hr & Hkey).
        split; [by right|]. exists r. split; [|done].
        by apply lookup_app_l_Some.
  - destruct (add_application_Raise t c p d i e Hjob) as (msg & _ & ->). done.
Qed.

(** [process_next_application] on a tracker with pending records: the
    record popped is a least one of the heap; the call returns it when its
    key is in the index and raises [KeyError] when it is not. *)
Lemma process_next_application_pops t :
  tracker_inv t -> job_heap t <> [] ->
  exists job heap' r,
    job_heap t ≡ₚ job :: heap'
    /\ heap_ordered (object_lt (objects t)) heap'
    /\ (forall y, y ∈ job_heap t -> object_lt (objects t) y job = false)
    /\ objects t !! job = Some r
    /\ process_next_application t =
       match jobs t !! (company r, position r) with
       | Some _ =>
           ({| objects := alter (set_status "Processed") job (objects t);
               job_heap := heap';
               jobs := delete (company r, position r) (jobs t) |},
            [Processing (set_status "Processed" r)], Return (Some job))
       | None =>
           ({| objects := alter (set_status "Processed") job (objects t);
               job_heap := heap'; jobs := jobs t |},
            [], Raise (KeyError (company r, position r)))
       end.
Proof.
  intros Hinv Hne.
  destruct (heappop_spec (object_lt (objects t)) (object_lt_asym _)
              (object_le_trans _) (job_heap t) Hne (inv_ordered _ Hinv))
    as (job & heap' & Hpop & Hord & Hperm & Hmin).
  assert (Hin : job ∈ job_heap t) by (rewrite Hperm; left).
  destruct (lookup_lt_is_Some_2 (objects t) job) as [r Hr];
    [by apply (inv_alloc _ Hinv)|].
  exists job, heap', r. repeat (split; [done|]).
  unfold process_next_application. rewrite Hpop.
  destruct (job_heap t); [done|].
  rewrite list_lookup_alter_eq, Hr. simpl.
  by destruct (jobs t !! (company r, position r)).
Qed.

Lemma process_next_application_inv t :
  tracker_inv t -> tracker_inv (process_next_application t).1.1.
Proof.
  intros Hinv. destruct (decide (job_heap t = [])) as [Hnil|Hne].
  { unfold process_next_application. by rewrite Hnil. }
  destruct (process_next_application_pops t Hinv Hne)
    as (job & heap' & r & Hperm & Hord & _ & Hr & ->).
  pose proof (inv_nodup _ Hinv) as Hnd. rewrite Hperm in Hnd.
  apply NoDup_cons in Hnd as [Hnotin Hnd].
  assert (Hidx : forall k id, jobs t !! k = Some id ->
            k <> (company r, position r) ->
            id ∈ heap'
            /\ exists r', alter (set_status "Processed") job (objects t) !! id = Some r'
                          /\ (company r', position r') = k).
  { intros k id Hk Hkey.
    destruct (inv_index _ Hinv k id Hk) as (Hin & r' & Hr' & Hkey').
    rewrite Hperm in Hin. apply elem_of_cons in Hin as [->|Hin].
    - rewrite Hr in Hr'. injection Hr' as <-. done.
    - split; [done|]. exists r'. split; [|done].
      rewrite list_lookup_alter_ne by (intros ->; done). done. }
  assert (Hbase : heap_ordered
            (object_lt (alter (set_status "Processed") job (objects t))) heap'
          /\ forall id, id ∈ heap' ->
               id < length (alter (set_status "Processed") job (objects t))).
  { split.
    - eapply heap_ordered_ext; [|exact Hord].
      intros x y _ _. symmetry. apply object_lt_alter_status.
    - intros id Hin. rewrite length_alter. apply (inv_alloc _ Hinv).
      rewrite Hperm. by right. }
  destruct Hbase as [Hord' Halloc].
  destruct (jobs t !! (company r, position r)) as [cur|] eqn:Hcur; split; simpl;
    try done.
  - intros k id Hk. apply lookup_delete_Some in Hk as [Hkey Hk]. eauto.
  - intros k id Hk. apply Hidx; [done|]. intros ->. by rewrite Hcur in Hk.
Qed.

Lemma view_pending_applications_state t :
  (view_pending_applications t).1.1 = t.
Proof. unfold view_pending_applications. by destruct (job_heap t). Qed.

Lemma update_status_inv t c p s :
  tracker_inv t -> tracker_inv (update_status t c p s).1.1.
Proof.
  intros Hinv. unfold update_status.
  destruct (jobs t !! (c, p)) as [job|]; [|done].
  destruct (decide (s ∈ VALID_STATUSES)); [|done].
  split; simpl.
  - eapply heap_ordered_ext; [|apply (inv_ordered _ Hinv)].
    intros x y _ _. symmetry. apply object_lt_alter_status.
  - apply (inv_nodup _ Hinv).
  - intros id Hin. rewrite length_alter. by apply (inv_alloc _ Hinv).
  - intros k id Hk. destruct (inv_index _ Hinv k id Hk) as (Hin & r & Hr & Hkey).
    split; [done|]. rewrite list_lookup_alter.
    destruct (decide (job = id)) as [->|Hne].
    + rewrite Hr. simpl. eauto.
    + eauto.
Qed.

Lemma step_inv t c : tracker_inv t -> tracker_inv (step t c).1.
Proof.
  intros Hinv. destruct c as [c p d i| | |c p s]; simpl.
  - pose proof (add_application_inv t c p d i Hinv).
    by destruct (add_application t c p d i) as [[??]?].
  - pose proof (process_next_application_inv t Hinv).
    by destruct (process_next_application t) as [[??]?].
  - pose proof (view_pending_applications_state t) as Hv.
    destruct (view_pending_applications t) as [[??]?]. simpl in *. by subst.
  - pose proof (update_status_inv t c p s Hinv).
    by destruct (update_status t c p s) as [[??]?].
Qed.

Lemma JobTracker_init_inv : tracker_inv JobTracker_init.
Proof.
  split; simpl.
  - intros i x p _ Hx. done.
  - constructor.
  - intros id Hin. by apply elem_of_nil in Hin.
  - intros k id Hk. by rewrite lookup_empty in Hk.
Qed.

Lemma run_inv calls t : tracker_inv t -> tracker_inv (run calls t).
Proof.
  revert t. induction calls as [|c calls IH]; intros t Hinv; [done|].
  apply IH. by apply step_inv.
Qed.

(** * Index and heap under distinct keys *)


Lemma lookup_alter_status (objs : list JobApplication) s (job id : nat) r :
  alter (set_status s) job objs !! id = Some r ->
  exists r0, objs !! id = Some r0 /\ key_of r = key_of r0.
Proof.
  rewrite list_lookup_alter. destruct (decide (job = id)) as [->|_]; [|eauto].
  destruct (objs !! id) as [r0|]; [|done]. intros [= <-]. eauto.
Qed.

Lemma process_next_application_current t :
  tracker_inv t -> keys_current t -> job_heap t <> [] ->
  exists job heap' r,
    job_heap t ≡ₚ job :: heap'
    /\ (forall y, y ∈ job_heap t -> object_lt (objects t) y job = false)
    /\ objects t !! job = Some r
    /\ process_next_application t =
        ({| objects := alter (set_status "Processed") job (objects t);
            job_heap := heap'; jobs := delete (key_of r) (jobs t) |},
         [Processing (set_status "Processed" r)], Return (Some job))
    /\ keys_current (process_next_application t).1.1.
Proof.
  intros Hinv Hcur Hne.
  destruct (process_next_application_pops t Hinv Hne)
    as (job & heap' & r & Hperm & _ & Hmin & Hr & Hrun).
  assert (Hin : job ∈ job_heap t) by (rewrite Hperm; left).
  pose proof (Hcur job r Hin Hr) as Hkey.
  change (key_of r) with (company r, position r) in Hkey. rewrite Hkey in Hrun.
  exists job, heap', r. repeat (split; [done|]). rewrite Hrun. simpl.
  pose proof (inv_nodup _ Hinv) as Hnd. rewrite Hperm in Hnd.
  apply NoDup_cons in Hnd as [Hnotin _].
  intros id r' Hid Hr'. simpl in *.
  assert (Hneq : job <> id) by (intros ->; done).
  rewrite list_lookup_alter_ne in Hr' by done.
  assert (Hid' : id ∈ job_heap t) by (rewrite Hperm; by right).
  pose proof (Hcur id r' Hid' Hr') as Hk.
  rewrite lookup_delete_ne; [done|].
  intros Heq. change (key_of r = key_of r') in Heq.
  change (jobs t !! key_of r = Some job) in Hkey. rewrite Heq in Hkey. congruence.
Qed.

Lemma step_current t c calls :
  tracker_inv t -> keys_current t ->
  NoDup (added_pairs (c :: calls)) -> pending_keys_fresh t (c :: calls) ->
  keys_current (step t c).1 /\ pending_keys_fresh (step t c).1 calls.
Proof.
  intros Hinv Hcur Hnd Hfresh. unfold pending_keys_fresh in *.
  destruct c as [c p d i| | |c p s]; simpl in *.
  - destruct (JobApplication_init c p d i) as [job|e] eqn:Hjob.
    + destruct (add_application_Return t c p d i job Hinv Hjob)
        as (h' & -> & Hperm & _). simpl.
      destruct (JobApplication_init_Return _ _ _ _ _ Hjob) as (Hc & Hp & _).
      apply NoDup_cons in Hnd as [Hnew Hnd].
      assert (Hlook : forall id r, id ∈ h' ->
                (objects t ++ [job]) !! id = Some r ->
                (id = length (objects t) /\ r = job)
                \/ (id ∈ job_heap t /\ objects t !! id = Some r)).
      { intros id r Hid Hr. rewrite Hperm in Hid.
        apply elem_of_cons in Hid as [->|Hid].
        - left. rewrite lookup_app_r, Nat.sub_diag in Hr by lia.
          by injection Hr as <-.
        - right. split; [done|].
          rewrite lookup_app_l in Hr by (by apply (inv_alloc _ Hinv)). done. }
      split; intros id r Hid Hr; simpl in *;
        destruct (Hlook id r Hid Hr) as [[-> ->]|[Hid' Hr']].
      * unfold key_of. rewrite Hc, Hp. apply lookup_insert_eq.
      * rewrite lookup_insert_ne; [by apply Hcur|].
        intros Heq. apply (Hfresh id r Hid' Hr'). rewrite <- Heq. left.
      * unfold key_of. by rewrite Hc, Hp.
      * intros Hin. apply (Hfresh id r Hid' Hr'). by right.
    + destruct (add_application_Raise t c p d i e Hjob) as (msg & _ & ->). done.
  - destruct (decide (job_heap t = [])) as [Hnil|Hne].
    { unfold process_next_application. by rewrite Hnil. }
    destruct (process_next_application_current t Hinv Hcur Hne)
      as (job & heap' & r & Hperm & _ & Hr & Hrun & Hcur').
    rewrite Hrun in *. simpl in *. split; [done|].
    intros id r' Hid Hr'. simpl in *.
    assert (Hid' : id ∈ job_heap t) by (rewrite Hperm; by right).
    rewrite list_lookup_alter in Hr'. destruct (decide (job = id)) as [->|_].
    + rewrite Hr in Hr'. injection Hr' as <-. by apply (Hfresh id r).
    + by apply (Hfresh id r').
  - pose proof (view_pending_applications_state t) as Hv.
    destruct (view_pending_applications t) as [[??]?]. simpl in *. by subst.
  - unfold update_status. destruct (jobs t !! (c, p)) as [job|]; [|done].
    destruct (decide (s ∈ VALID_STATUSES)); [|done]. simpl.
    split; intros id r Hid Hr; simpl in *;
      apply lookup_alter_status in Hr as (r0 & Hr0 & ->).
    + by apply Hcur.
    + by apply Hfresh with id.
Qed.

Lemma run_current calls :
  forall t, tracker_inv t -> keys_current t ->
    NoDup (added_pairs calls) -> pending_keys_fresh t calls ->
    keys_current (run calls t).
Proof.
  induction calls as [|c calls IH]; intros t Hinv Hcur Hnd Hfresh; [done|].
  destruct (step_current t c calls Hinv Hcur Hnd Hfresh) as [Hcur' Hfresh'].
  apply IH; auto using step_inv.
  simpl in Hnd. destruct c as [c p d i| | |]; try done.
  destruct (JobApplication_init c p d i); [|done].
  by apply NoDup_cons in Hnd as [_ ?].
Qed.

(** C3: after any sequence of calls whose added (company, position) pairs
    are distinct, the keys of the index are exactly the pairs of the records
    in the heap, and each key maps to the record in the heap that bears it. *)
Theorem index_mirrors_heap (calls : list call) :
  NoDup (added_pairs calls) ->
  let t := run calls JobTracker_init in
  (forall k, is_Some (jobs t !! k) <->
     exists id r, id ∈ job_heap t /\ objects t !! id = Some r /\ key_of r = k)
  /\ (forall k id, jobs t !! k = Some id ->
        id ∈ job_heap t /\ exists r, objects t !! id = Some r /\ key_of r = k).
Proof.
  intros Hnd t.
  assert (Hinv : tracker_inv t) by apply run_inv, JobTracker_init_inv.
  assert (Hcur : keys_current t).
  { apply run_current; auto using JobTracker_init_inv.
    - intros id r Hid. by apply elem_of_nil in Hid.
    - intros id r Hid. by apply elem_of_nil in Hid. }
  split; [|apply (inv_index _ Hinv)].
  intros k. split.
  - intros [id Hk]. destruct (inv_index _ Hinv k id Hk) as (Hin & r & Hr & Hkey).
    eauto.
  - intros (id & r & Hin & Hr & <-). exists id. by apply Hcur.
Qed.



(** * The order in which records are processed *)


Lemma process_all_sorted n :
  forall t, tracker_inv t -> keys_current t -> length (job_heap t) = n ->
    exists l,
      map snd (outcomes (replicate n ProcessNext) t)
        = map (fun j => Return (Some j)) l
      /\ l ≡ₚ job_heap t
      /\ forall i j a b, i < j -> l !! i = Some a -> l !! j = Some b ->
           object_lt (objects t) b a = false.
Proof.
  induction n as [|n IH]; intros t Hinv Hcur Hlen.
  { exists []. apply nil_length_inv in Hlen. rewrite Hlen.
    repeat split; [done|]. intros i j a b _ Hi. done. }
  assert (Hne : job_heap t <> []) by (intros Hnil; by rewrite Hnil in Hlen).
  destruct (process_next_application_current t Hinv Hcur Hne)
    as (job & heap' & r & Hperm & Hmin & Hr & Hrun & Hcur').
  pose proof (process_next_application_inv t Hinv) as Hinv'.
  rewrite Hrun in Hcur', Hinv'. simpl in Hcur', Hinv'.
  destruct (IH _ Hinv' Hcur') as (l & Hout & Hl & Hsorted).
  { simpl. rewrite Hperm in Hlen. simpl in Hlen. lia. }
  exists (job :: l). simpl. rewrite Hrun. simpl. rewrite Hout.
  split; [done|]. split; [by rewrite Hperm, Hl|].
  simpl in Hl, Hsorted.
  intros i j a b Hij Ha Hb. destruct j as [|j]; [lia|]. simpl in Hb.
  destruct i as [|i]; simpl in Ha.
  - injection Ha as <-. apply Hmin. rewrite Hperm. right. rewrite <- Hl.
    eapply list_elem_of_lookup_2; eauto.
  - rewrite <- (object_lt_alter_status _ "Processed" job).
    apply (Hsorted i j); [lia|done|done].
Qed.

(** When the pairs added are distinct, a record that sorts before another
    pending record is returned before it. *)
Lemma process_all_order (calls : list call) (a b : nat) :
  NoDup (added_pairs calls) ->
  let t := run calls JobTracker_init in
  a ∈ job_heap t -> b ∈ job_heap t -> object_lt (objects t) a b = true ->
  exists i j, i < j
    /\ snd <$> process_all t !! i = Some (Return (Some a))
    /\ snd <$> process_all t !! j = Some (Return (Some b)).
Proof.
  intros Hnd t Ha Hb Hab.
  assert (Hinv : tracker_inv t) by apply run_inv, JobTracker_init_inv.
  assert (Hcur : keys_current t).
  { apply run_current; auto using JobTracker_init_inv;
      intros id r Hid; by apply elem_of_nil in Hid. }
  destruct (process_all_sorted _ t Hinv Hcur eq_refl) as (l & Hout & Hl & Hsorted).
  rewrite <- Hl in Ha, Hb.
  apply list_elem_of_lookup in Ha as [i Hi]. apply list_elem_of_lookup in Hb as [j Hj].
  assert (Hget : forall k x, l !! k = Some x ->
            snd <$> process_all t !! k = Some (Return (Some x))).
  { intros k x Hk. unfold process_all. rewrite <- list_lookup_fmap.
    change (fmap snd) with (map (@snd (list event) (result (option nat)))).
    rewrite Hout. change (map ?f l) with (f <$> l).
    by rewrite list_lookup_fmap, Hk. }
  exists i, j. split; [|by auto].
  destruct (Nat.lt_trichotomy i j) as [Hlt|[Heq|Hgt]]; [done| |].
  - subst j. rewrite Hi in Hj. injection Hj as <-.
    by rewrite (object_lt_asym _ _ _ Hab) in Hab.
  - by rewrite (Hsorted j i b a Hgt Hj Hi) in Hab.
Qed.

(** * Listing and status updates *)


Lemma sorted_insert_Permutation {A} (lt : A -> A -> bool) x l :
  sorted_insert lt x l ≡ₚ x :: l.
Proof.
  induction l as [|y l IH]; simpl; [done|].
  destruct (lt x y); [done|]. rewrite IH. apply perm_swap.
Qed.

Lemma sorted_Permutation {A} (lt : A -> A -> bool) l : sorted lt l ≡ₚ l.
Proof.
  unfold sorted. rewrite <- (app_nil_r l) at 2. generalize (@nil A) as acc.
  induction l as [|x l IH]; intros acc; simpl; [done|].
  rewrite IH, sorted_insert_Permutation. by rewrite Permutation_middle.
Qed.






(** * Facts about strptime *)

Section StrptimeFacts.
Import Strptime.

Lemma in_range_spec lo hi c :
  in_range lo hi c = true <-> (N_of_ascii lo <= c /\ c <= N_of_ascii hi)%N.
Proof. unfold in_range. rewrite andb_true_iff, !N.leb_le. tauto. Qed.

Lemma in_range_single a c : in_range a a c = is_char a c.
Proof.
  apply eq_true_iff_eq. unfold is_char. rewrite in_range_spec, N.eqb_eq. lia.
Qed.

Lemma is_char_spec a c : is_char a c = true <-> c = N_of_ascii a.
Proof. unfold is_char. apply N.eqb_eq. Qed.

(** What the matchers accept. *)
Lemma elem_of_range lo hi (l : chars) m r :
  (m, r) ∈ range lo hi l <-> exists c, l = c :: r /\ m = [c] /\ in_range lo hi c = true.
Proof.
  unfold range. destruct l as [|c l].
  - split; [by intros ?%elem_of_nil|]. by intros (c & ? & _).
  - destruct (in_range lo hi c) eqn:Hc.
    + rewrite list_elem_of_singleton. split.
      * intros [= -> ->]. eauto.
      * intros (c' & [= <- <-] & -> & _). done.
    + split; [by intros ?%elem_of_nil|]. intros (c' & [= <- <-] & _ & ?). congruence.
Qed.

Lemma elem_of_digit (l : chars) m r :
  (m, r) ∈ digit l <-> exists c, l = c :: r /\ m = [c] /\ is_decimal c = true.
Proof.
  unfold digit. destruct l as [|c l].
  - split; [by intros ?%elem_of_nil|]. by intros (c & ? & _).
  - destruct (is_decimal c) eqn:Hc.
    + rewrite list_elem_of_singleton. split.
      * intros [= -> ->]. eauto.
      * intros (c' & [= <- <-] & -> & _). done.
    + split; [by intros ?%elem_of_nil|]. intros (c' & [= <- <-] & _ & ?). congruence.
Qed.

Lemma elem_of_seq (a b : regex) (l : chars) m r :
  (m, r) ∈ seq a b l <->
  exists m1 r1 m2, (m1, r1) ∈ a l /\ (m2, r) ∈ b r1 /\ m = m1 ++ m2.
Proof.
  unfold seq. rewrite list_elem_of_bind. split.
  - intros ([m1 r1] & Hin & H1).
    apply list_elem_of_bind in Hin as ([m2 r2] & Hin & H2).
    apply list_elem_of_singleton in Hin as [= -> ->]. eauto 10.
  - intros (m1 & r1 & m2 & H1 & H2 & ->). exists (m1, r1). split; [|done].
    apply list_elem_of_bind. exists (m2, r). split; [|done]. by left.
Qed.

Lemma elem_of_alt (a b : regex) (l : chars) x : x ∈ alt a b l <-> x ∈ a l \/ x ∈ b l.
Proof. unfold alt. apply elem_of_app. Qed.

Ltac matched :=
  repeat match goal with
    | H : _ ∈ alt _ _ _ |- _ => apply elem_of_alt in H as [H|H]
    | H : _ ∈ seq _ _ _ |- _ =>
        apply elem_of_seq in H as (? & ? & ? & ? & ? & ->)
    | H : _ ∈ chr _ _ |- _ => unfold chr in H
    | H : _ ∈ digit _ |- _ => apply elem_of_digit in H as (? & -> & -> & H)
    | H : _ ∈ range _ _ _ |- _ =>
        apply elem_of_range in H as (? & -> & -> & H)
    end.

Lemma re_Y_sound (l : chars) Y r :
  (Y, r) ∈ re_Y l -> l = Y ++ r /\ is_year_text Y = true.
Proof.
  unfold re_Y. intros H. matched. split; [done|]. simpl.
  repeat match goal with H : is_decimal _ = true |- _ => rewrite H; clear H end.
  done.
Qed.

Lemma re_m_sound (l : chars) m r :
  (m, r) ∈ re_m l -> l = m ++ r /\ is_month_text m = true.
Proof.
  unfold re_m. intros H. matched; (split; [done|]); simpl;
    rewrite ?in_range_single in *;
    repeat match goal with H : _ = true |- _ => rewrite H; clear H end;
    rewrite ?orb_true_r; done.
Qed.

Lemma re_d_sound (l : chars) d r :
  (d, r) ∈ re_d l -> l = d ++ r /\ is_day_text d = true.
Proof.
  unfold re_d. intros H. matched; (split; [done|]); simpl;
    rewrite ?in_range_single in *;
    repeat match goal with H : _ = true |- _ => rewrite H; clear H end;
    rewrite ?orb_true_r; done.
Qed.

Lemma format_regex_match_sound (l : chars) Y m d r :
  format_regex_match l = Some (Y, m, d, r) ->
  l = Y ++ hyphen :: m ++ hyphen :: d ++ r
  /\ is_year_text Y = true /\ is_month_text m = true /\ is_day_text d = true.
Proof.
  unfold format_regex_match. intros H%head_Some_elem_of.
  apply list_elem_of_bind in H as ([Y' r1] & H & HY).
  apply list_elem_of_bind in H as ([h1 r2] & H & Hh1).
  apply list_elem_of_bind in H as ([m' r3] & H & Hm).
  apply list_elem_of_bind in H as ([h2 r4] & H & Hh2).
  apply list_elem_of_bind in H as ([d' r5] & H & Hd).
  apply list_elem_of_singleton in H as [= -> -> -> ->].
  apply re_Y_sound in HY as [-> ?]. apply re_m_sound in Hm as [-> ?].
  apply re_d_sound in Hd as [-> ?]. matched.
  rewrite in_range_single, is_char_spec in Hh1, Hh2. subst. done.
Qed.

(** Settles a test on a known character by computation, a test recorded
    in the context by rewriting, and any other by cases. *)
Ltac decide_in_range :=
  match goal with
  | H : in_range ?a ?b ?c = _ |- context [in_range ?a ?b ?c] => rewrite H
  | H : is_decimal ?c = _ |- context [is_decimal ?c] => rewrite H
  | |- context [in_range ?a ?b (N_of_ascii ?c)] =>
      let v := eval vm_compute in (in_range a b (N_of_ascii c)) in
      match v with
      | true => change (in_range a b (N_of_ascii c)) with true
      | false => change (in_range a b (N_of_ascii c)) with false
      end
  | |- context [is_decimal (N_of_ascii ?c)] =>
      let v := eval vm_compute in (is_decimal (N_of_ascii c)) in
      match v with
      | true => change (is_decimal (N_of_ascii c)) with true
      | false => change (is_decimal (N_of_ascii c)) with false
      end
  | |- context [in_range ?a ?b ?c] =>
      let E := fresh "E" in destruct (in_range a b c) eqn:E
  | |- context [is_decimal ?c] =>
      let E := fresh "E" in destruct (is_decimal c) eqn:E
  end.

(** Closes a case whose recorded tests contradict each other. *)
Ltac range_conflict :=
  exfalso;
  repeat match goal with
    | H : in_range _ _ _ = true |- _ => apply in_range_spec in H
    | H : in_range _ _ _ = false |- _ =>
        apply not_true_iff_false in H; rewrite in_range_spec in H
    end;
  repeat match goal with
    | H : context [N_of_ascii (Ascii ?a ?b ?c ?d ?e ?f ?g ?h)] |- _ =>
        let v := eval vm_compute in (N_of_ascii (Ascii a b c d e f g h)) in
        change (N_of_ascii (Ascii a b c d e f g h)) with v in H
    end;
  lia.

Ltac range_cases :=
  unfold re_Y, re_m, re_d, digit, chr, seq, alt, range, hyphen;
  cbn -[in_range is_decimal N_of_ascii];
  repeat (decide_in_range; cbn -[in_range is_decimal N_of_ascii] in * );
  try discriminate; eauto; try range_conflict.

Lemma re_Y_complete (ys r : chars) :
  is_year_text ys = true -> re_Y (ys ++ r) = [(ys, r)].
Proof.
  intros Hy. destruct ys as [|y1 [|y2 [|y3 [|y4 [|? ?]]]]]; try done.
  simpl in Hy.
  repeat match goal with
    | H : _ && _ = true |- _ => apply andb_true_iff in H as [? ?]
    end.
  range_cases.
Qed.

Lemma re_m_complete (ms r : chars) :
  is_month_text ms = true ->
  exists rest, re_m (ms ++ hyphen :: r) = (ms, hyphen :: r) :: rest.
Proof.
  intros Hm. destruct ms as [|m1 [|m2 [|? ?]]]; try done; simpl in Hm;
    rewrite <- ?in_range_single in Hm; range_cases.
Qed.

Lemma re_d_complete (ds : chars) :
  is_day_text ds = true -> exists rest, re_d ds = (ds, []) :: rest.
Proof.
  intros Hd. destruct ds as [|d1 [|d2 [|? ?]]]; try done; simpl in Hd;
    rewrite <- ?in_range_single in Hd; range_cases.
Qed.

Lemma format_regex_match_complete (ys ms ds : chars) :
  is_year_text ys = true -> is_month_text ms = true -> is_day_text ds = true ->
  format_regex_match (ys ++ hyphen :: ms ++ hyphen :: ds)
  = Some (ys, ms, ds, []).
Proof.
  intros Hy Hm Hd. unfold format_regex_match.
  rewrite (re_Y_complete _ _ Hy).
  destruct (re_m_complete ms ds Hm) as [rest_m Hrm].
  destruct (re_d_complete ds Hd) as [rest_d Hrd].
  assert (Hchr : forall r : chars, chr "-" (hyphen :: r) = [([hyphen], r)])
    by done.
  rewrite bind_singleton, Hchr, bind_singleton, Hrm, bind_cons.
  rewrite Hchr, bind_singleton, Hrd, bind_cons. done.
Qed.

(** [strptime] accepts exactly the strings that name a date. *)
Lemma strptime_names_date (s : string) (dt : datetime) :
  strptime s = Some dt <-> names_date s dt.
Proof.
  unfold strptime, names_date. split.
  - destruct (format_regex_match (code_points (list_ascii_of_string s)))
      as [[[[Y m] d] rest]|] eqn:Hmatch; [|done].
    apply format_regex_match_sound in Hmatch as (Hl & HY & Hm & Hd).
    destruct rest; [|done]. rewrite app_nil_r in Hl.
    destruct (check_date_fields (int Y) (int m) (int d)) eqn:Hcheck; [|done].
    intros [= <-]. exists Y, m, d. done.
  - intros (ys & ms & ds & -> & HY & Hm & Hd & Hcheck & ->).
    by rewrite (format_regex_match_complete _ _ _ HY Hm Hd), Hcheck.
Qed.
End StrptimeFacts.

(** * The specified properties *)

(** ** Ordering (C1, C2) *)

(** When the pairs added are distinct, a pending record of higher
    importance is returned before one of lower importance. *)
Theorem distinct_pairs_importance_order (calls : list call) (a b : nat)
    (ra rb : JobApplication) :
  NoDup (added_pairs calls) ->
  let t := run calls JobTracker_init in
  a ∈ job_heap t -> b ∈ job_heap t ->
  objects t !! a = Some ra -> objects t !! b = Some rb ->
  (importance ra > importance rb)%Z ->
  exists i j, i < j
    /\ snd <$> process_all t !! i = Some (Return (Some a))
    /\ snd <$> process_all t !! j = Some (Return (Some b)).
Proof.
  intros Hnd t Ha Hb Hra Hrb Himp. apply process_all_order; try done.
  subst t. unfold object_lt. rewrite Hra, Hrb. apply JobApplication_lt_spec. by left.
Qed.

(** When the pairs added are distinct, of two pending records of equal
    importance the one with the earlier deadline is returned first. *)
Theorem distinct_pairs_deadline_order (calls : list call) (a b : nat)
    (ra rb : JobApplication) :
  NoDup (added_pairs calls) ->
  let t := run calls JobTracker_init in
  a ∈ job_heap t -> b ∈ job_heap t ->
  objects t !! a = Some ra -> objects t !! b = Some rb ->
  importance ra = importance rb ->
  Strptime.datetime_lt (deadline ra) (deadline rb) = true ->
  exists i j, i < j
    /\ snd <$> process_all t !! i = Some (Return (Some a))
    /\ snd <$> process_all t !! j = Some (Return (Some b)).
Proof.
  intros Hnd t Ha Hb Hra Hrb Himp Hdl. apply process_all_order; try done.
  subst t. unfold object_lt. rewrite Hra, Hrb. apply JobApplication_lt_spec. by right.
Qed.

(** C1, at a tracker that holds a stale record: records 1 (importance 5)
    and 2 (importance 3) are pending; the call that pops record 1 raises
    [KeyError] and never returns it, while record 2 is returned. *)
Theorem stale_record_breaks_importance_order :
  let t := run stale_then_two JobTracker_init in
  1 ∈ job_heap t /\ 2 ∈ job_heap t
  /\ importance <$> objects t !! 1 = Some 5%Z
  /\ importance <$> objects t !! 2 = Some 3%Z
  /\ map snd (process_all t)
     = [Return (Some 0); Raise (KeyError ("Acme", "Eng")%string);
        Return (Some 2)].
Proof.
  vm_compute. repeat split; try reflexivity.
  - apply list_elem_of_further, list_elem_of_here.
  - apply list_elem_of_further, list_elem_of_further, list_elem_of_here.
Qed.

(** C2, at a tracker that holds a stale record: records 1 and 2 have
    importance 5 and record 1 has the earlier deadline; the call that pops
    record 1 raises [KeyError] and never returns it, while record 2 is
    returned. *)
Theorem stale_record_breaks_deadline_order :
  let t := run stale_then_tie JobTracker_init in
  1 ∈ job_heap t /\ 2 ∈ job_heap t
  /\ importance <$> objects t !! 1 = Some 5%Z
  /\ importance <$> objects t !! 2 = Some 5%Z
  /\ (r1 ← objects t !! 1; r2 ← objects t !! 2;
      Some (Strptime.datetime_lt (deadline r1) (deadline r2))) = Some true
  /\ map snd (process_all t)
     = [Return (Some 0); Raise (KeyError ("Acme", "Eng")%string);
        Return (Some 2)].
Proof.
  vm_compute. repeat split; try reflexivity.
  - apply list_elem_of_further, list_elem_of_here.
  - apply list_elem_of_further, list_elem_of_further, list_elem_of_here.
Qed.

(** ** Index and heap (C3) *)

Lemma index_mirrors_heap_witness :
  is_Some (jobs (run scenario JobTracker_init) !! ("Acme", "Eng")%string) <->
  exists id r, id ∈ job_heap (run scenario JobTracker_init)
    /\ objects (run scenario JobTracker_init) !! id = Some r
    /\ key_of r = ("Acme", "Eng")%string.
Proof.
  apply (index_mirrors_heap scenario).
  apply (bool_decide_unpack _). vm_compute. reflexivity.
Defined.

(** ** Validation (C4, C5) *)

(** C4: [add_application] with a deadline that does not parse or with an
    importance that is not positive reports the error and returns the
    tracker as it was: nothing is pushed on the heap and nothing is
    registered in the index. *)
Theorem add_application_invalid_unchanged (t : JobTracker)
    (c p d : string) (i : Z) :
  Strptime.strptime d = None \/ (i <= 0)%Z ->
  exists msg, add_application t c p d i = (t, [Error msg], Return tt).
Proof.
  intros Hbad. unfold add_application, JobApplication_init.
  destruct (Strptime.strptime d) as [dt|]; [|eauto].
  destruct Hbad as [?|Hi]; [done|]. rewrite decide_True by done. eauto.
Qed.

Lemma add_application_invalid_unchanged_witness :
  exists msg,
    add_application (run scenario JobTracker_init) "Hooli" "SRE" "2025-13-01" 5
    = (run scenario JobTracker_init, [Error msg], Return tt).
Proof.
  apply add_application_invalid_unchanged. left. vm_compute. reflexivity.
Defined.

(** A deadline with a one-digit month and day is parsed. *)
Lemma one_digit_deadline_constructs :
  strict_form "2025-6-1" = false
  /\ JobApplication_init "Acme" "Eng" "2025-6-1" 5
     = Return {| company := "Acme"; position := "Eng";
                 deadline := {| Strptime.year := 2025; Strptime.month := 6;
                                Strptime.day := 1 |};
                 importance := 5; status := "Pending" |}.
Proof. vm_compute. split; reflexivity. Qed.

(** A deadline of the strict form that names no date is rejected. *)
Lemma no_such_date_rejected :
  strict_form "2025-02-30" = true
  /\ JobApplication_init "Acme" "Eng" "2025-02-30" 5 = Raise deadline_error.
Proof. vm_compute. split; reflexivity. Qed.

(** C5 as stated fails: the deadline [2025-6-1] is not of the strict form,
    yet the record is constructed. *)
Lemma strict_form_not_required :
  ~ (forall c p s i,
       JobApplication_init c p s i = Raise deadline_error
       <-> strict_form s = false).
Proof.
  intros H. destruct one_digit_deadline_constructs as [Hform Hinit].
  apply (H "Acme" "Eng" "2025-6-1" 5%Z) in Hform.
  rewrite Hinit in Hform. discriminate.
Qed.

(** The digits of [\d] are those of every script: a year in fullwidth
    digits is parsed, and so is a day whose second digit is Arabic-Indic;
    the month, whose pattern names the digits [0] to [9], is not. *)
Lemma other_script_digits :
  Strptime.strptime "２０２５-06-01"
  = Some {| Strptime.year := 2025; Strptime.month := 6; Strptime.day := 1 |}
  /\ Strptime.strptime "2025-06-1٥"
     = Some {| Strptime.year := 2025; Strptime.month := 6; Strptime.day := 15 |}
  /\ Strptime.strptime "2025-０６-01" = None
  /\ JobApplication_init "Acme" "Eng" "２０２５-06-01" 5 = Return acme.
Proof. vm_compute. repeat split; reflexivity. Qed.

(** C5, amended: construction fails with the deadline error exactly when
    the string does not name a date for [strptime], that is, when it is not
    a year of four decimal digits (of any script), a hyphen, a month
    written [1]-[9], [01]-[09] or [10]-[12], a hyphen and a day written
    [1]-[9], [01]-[09], [30], [31], a blank and [1]-[9], or [1] or [2] and
    a decimal digit (of any script), for a day that exists in a year from
    0001 on. *)
Theorem deadline_error_iff_no_date (c p s : string) (i : Z) :
  JobApplication_init c p s i = Raise deadline_error
  <-> ~ exists dt, names_date s dt.
Proof.
  unfold JobApplication_init. split.
  - intros Hfail [dt Hdt]. apply strptime_names_date in Hdt. rewrite Hdt in Hfail.
    destruct (decide (i <= 0)%Z); discriminate.
  - intros Hno. destruct (Strptime.strptime s) as [dt|] eqn:Hparse; [|done].
    destruct Hno. exists dt. by apply strptime_names_date.
Qed.

(** ** Duplicate pairs (C6) *)

(** C6, at the calls that add one pair twice and then process both
    records: the second [process_next_application] raises [KeyError]. *)
Theorem duplicate_pair_raises_KeyError :
  map snd (outcomes duplicate_calls JobTracker_init)
  = [Return None; Return None; Return (Some 0);
     Raise (KeyError ("Acme", "Eng")%string)].
Proof. vm_compute. reflexivity. Qed.

(** ** Status updates (C7, C10) *)


(** At the example scenario, the listing after the update: the same two
    records in the same order, [Acme] now [Interviewing]. *)
Lemma update_status_listing :
  (view_pending_applications (run scenario JobTracker_init)).1.2
  = [PendingHeader; PendingLine globex; PendingLine acme]
  /\ (view_pending_applications
        (update_status (run scenario JobTracker_init)
           "Acme" "Eng" "Interviewing").1.1).1.2
     = [PendingHeader; PendingLine globex;
        PendingLine {| company := "Acme"; position := "Eng";
                       deadline := deadline acme; importance := 5;
                       status := "Interviewing" |}].
Proof. vm_compute. split; reflexivity. Qed.

(** C10: a failing [update_status] leaves the tracker as it was; when the
    pair is not in the index it reports that the application was not
    found, whatever the new status is, and it reports an invalid status
    only for a pair that is in the index. *)
Theorem update_status_failure (t : JobTracker) (c p s : string) :
  jobs t !! (c, p) = None \/ s ∉ VALID_STATUSES ->
  exists e, update_status t c p s = (t, [e], Return tt)
    /\ (jobs t !! (c, p) = None -> e = NotFound c p)
    /\ (is_Some (jobs t !! (c, p)) -> e = InvalidStatus).
Proof.
  intros Hfail. unfold update_status.
  destruct (jobs t !! (c, p)) as [id|] eqn:Hk.
  - destruct Hfail as [?|Hs]; [done|]. rewrite decide_False by done.
    exists InvalidStatus. split; [done|]. split; [done|]. done.
  - exists (NotFound c p). split; [done|]. split; [done|]. by intros [? ?].
Qed.

Lemma update_status_failure_witness :
  exists e,
    update_status (run scenario JobTracker_init) "Hooli" "SRE" "Hired"
    = (run scenario JobTracker_init, [e], Return tt)
    /\ (jobs (run scenario JobTracker_init) !! ("Hooli", "SRE")%string = None ->
        e = NotFound "Hooli" "SRE")
    /\ (is_Some (jobs (run scenario JobTracker_init) !! ("Hooli", "SRE")%string) ->
        e = InvalidStatus).
Proof.
  apply update_status_failure. left. vm_compute. reflexivity.
Defined.

(** ** The empty tracker (C8) *)

(** C8: on a tracker whose heap is empty, any number of calls to
    [process_next_application] and [view_pending_applications] leave the
    tracker as it was, and each of them prints that there are no pending
    applications, raises nothing and returns [None]. *)
Theorem empty_signal (t : JobTracker) (calls : list call) :
  job_heap t = [] ->
  Forall (fun c => c = ProcessNext \/ c = ViewPending) calls ->
  run calls t = t
  /\ outcomes calls t = replicate (length calls) ([NoPending], Return None).
Proof.
  intros Hempty Hcalls. induction Hcalls as [|c calls Hc _ IH]; [done|].
  assert (Hstep : step t c = (t, ([NoPending], Return None))).
  { destruct Hc as [-> | ->]; simpl;
      unfold process_next_application, view_pending_applications;
      by rewrite Hempty. }
  unfold run in *. simpl. rewrite Hstep. simpl. destruct IH as [-> ->]. done.
Qed.

Lemma empty_signal_witness :
  run [ProcessNext; ViewPending; ProcessNext] JobTracker_init = JobTracker_init
  /\ outcomes [ProcessNext; ViewPending; ProcessNext] JobTracker_init
     = replicate 3 ([NoPending], Return None).
Proof.
  apply (empty_signal JobTracker_init [ProcessNext; ViewPending; ProcessNext]).
  - reflexivity.
  - constructor; [by left|]. constructor; [by right|].
    constructor; [by left|]. constructor.
Defined.

(** ** The comparator (C9) *)

(** C9: [__lt__] is a strict weak ordering: irreflexive, asymmetric and
    transitive, and being neither smaller nor greater is transitive too. *)
Theorem JobApplication_lt_strict_weak_order (a b c : JobApplication) :
  JobApplication_lt a a = false
  /\ (JobApplication_lt a b = true -> JobApplication_lt b a = false)
  /\ (JobApplication_lt a b = true -> JobApplication_lt b c = true ->
      JobApplication_lt a c = true)
  /\ (JobApplication_lt a b = false -> JobApplication_lt b a = false ->
      JobApplication_lt b c = false -> JobApplication_lt c b = false ->
      JobApplication_lt a c = false /\ JobApplication_lt c a = false).
Proof.
  split; [apply JobApplication_lt_irrefl|].
  split; [apply JobApplication_lt_asym|].
  split; [apply JobApplication_lt_trans|].
  intros Hab Hba Hbc Hcb. split.
  - by apply (JobApplication_le_trans c b a).
  - by apply (JobApplication_le_trans a b c).
Qed.

Lemma JobApplication_lt_strict_weak_order_witness :
  JobApplication_lt initech acme = true.
Proof.
  apply (proj1 (proj2 (proj2
    (JobApplication_lt_strict_weak_order initech globex acme)))).
  - vm_compute. reflexivity.
  - vm_compute. reflexivity.
Defined.

(** * Further properties of the tracker *)

(** ** What a call does to a tracker *)

Lemma JobApplication_init_valid (c p d : string) (i : Z) (dt : Strptime.datetime) :
  Strptime.strptime d = Some dt -> (0 < i)%Z ->
  JobApplication_init c p d i
  = Return {| company := c; position := p; deadline := dt;
              importance := i; status := "Pending" |}.
Proof.
  intros Hd Hi. unfold JobApplication_init. rewrite Hd.
  by rewrite decide_False by lia.
Qed.

(** X1: on a tracker reached by any calls, [add_application] with a
    deadline that parses and a positive importance raises nothing: it
    allocates a record with status [Pending], puts it in the heap beside
    all the records that were there, and makes the index hold the new
    record for its pair, in place of the record held before, if any. *)
Theorem add_application_registers (calls : list call) (c p d : string)
    (i : Z) (dt : Strptime.datetime) :
  Strptime.strptime d = Some dt -> (0 < i)%Z ->
  let t := run calls JobTracker_init in
  exists heap',
    add_application t c p d i
    = ({| objects := objects t ++ [{| company := c; position := p;
                                       deadline := dt; importance := i;
                                       status := "Pending" |}];
          job_heap := heap';
          jobs := <[(c, p) := length (objects t)]> (jobs t) |},
       [Added c p d i], Return tt)
    /\ heap' ≡ₚ length (objects t) :: job_heap t.
Proof.
  intros Hd Hi t.
  assert (Hinv : tracker_inv t) by apply run_inv, JobTracker_init_inv.
  destruct (add_application_Return t c p d i _ Hinv
              (JobApplication_init_valid c p d i dt Hd Hi))
    as (heap' & Hrun & Hperm & _).
  by exists heap'.
Qed.

Lemma add_application_registers_witness :
  exists heap',
    add_application (run scenario JobTracker_init) "Hooli" "SRE" "2025-07-01" 4
    = ({| objects := objects (run scenario JobTracker_init)
                     ++ [{| company := "Hooli"; position := "SRE";
                            deadline := {| Strptime.year := 2025;
                                           Strptime.month := 7;
                                           Strptime.day := 1 |};
                            importance := 4; status := "Pending" |}];
          job_heap := heap';
          jobs := <[("Hooli", "SRE")%string
                    := length (objects (run scenario JobTracker_init))]>
                    (jobs (run scenario JobTracker_init)) |},
       [Added "Hooli" "SRE" "2025-07-01" 4], Return tt)
    /\ heap' ≡ₚ length (objects (run scenario JobTracker_init))
                :: job_heap (run scenario JobTracker_init).
Proof.
  apply (add_application_registers scenario "Hooli" "SRE" "2025-07-01" 4).
  - vm_compute. reflexivity.
  - lia.
Defined.

(** X2: after any sequence of calls from [JobTracker()], the heap is
    ordered by [__lt__] (no record sorts before its parent), holds every
    record once, and each entry of the index points to a record that is in
    the heap and bears the entry's pair. *)
Theorem reachable_tracker_inv (calls : list call) :
  tracker_inv (run calls JobTracker_init).
Proof. apply run_inv, JobTracker_init_inv. Qed.

(** ** What a call can raise *)








(** ** Processing *)



Lemma process_next_application_heap (t : JobTracker) :
  tracker_inv t -> job_heap t <> [] ->
  exists job r,
    objects t !! job = Some r
    /\ job_heap t ≡ₚ job :: job_heap (step t ProcessNext).1
    /\ objects (step t ProcessNext).1
       = alter (set_status "Processed") job (objects t)
    /\ ((step t ProcessNext).2.2 = Return (Some job)
        /\ is_Some (jobs t !! key_of r)
        /\ jobs (step t ProcessNext).1 = delete (key_of r) (jobs t)
        \/ (step t ProcessNext).2.2 = Raise (KeyError (key_of r))
           /\ jobs t !! key_of r = None
           /\ jobs (step t ProcessNext).1 = jobs t).
Proof.
  intros Hinv Hne.
  destruct (process_next_application_pops t Hinv Hne)
    as (job & heap' & r & Hperm & _ & _ & Hr & Hrun).
  exists job, r. split; [done|]. simpl. rewrite Hrun.
  change (company r, position r) with (key_of r).
  destruct (jobs t !! key_of r) as [cur|] eqn:Hk; simpl;
    repeat (split; [done|]); [left|right]; eauto.
Qed.

Lemma process_all_heap_empty (n : nat) :
  forall t, tracker_inv t -> length (job_heap t) = n ->
    job_heap (run (replicate n ProcessNext) t) = [].
Proof.
  induction n as [|n IH]; intros t Hinv Hlen.
  { by apply nil_length_inv. }
  assert (Hne : job_heap t <> []) by (intros Hnil; by rewrite Hnil in Hlen).
  destruct (process_next_application_heap t Hinv Hne) as (job & r & _ & Hperm & _).
  cbn -[step]. apply IH; [by apply step_inv|].
  rewrite Hperm in Hlen. cbn -[step] in Hlen. lia.
Qed.

(** X6: on a tracker reached by any calls, as many calls to
    [process_next_application] as there are records in the heap leave the
    heap empty and the index empty, whether or not some of them raise. *)
Theorem process_all_empties (calls : list call) :
  let t := run calls JobTracker_init in
  let t' := run (replicate (length (job_heap t)) ProcessNext) t in
  job_heap t' = [] /\ jobs t' = ∅.
Proof.
  intros t t'.
  assert (Hinv : tracker_inv t) by apply run_inv, JobTracker_init_inv.
  assert (Hinv' : tracker_inv t') by by apply run_inv.
  assert (Hheap : job_heap t' = []) by by apply process_all_heap_empty.
  split; [done|]. apply map_empty. intros k.
  destruct (jobs t' !! k) as [id|] eqn:Hk; [|done].
  destruct (inv_index _ Hinv' k id Hk) as [Hin _].
  rewrite Hheap in Hin. by apply elem_of_nil in Hin.
Qed.

(** ** Two pending records with one pair *)

Lemma absent_pair_raises (n : nat) :
  forall t b rb,
    tracker_inv t -> length (job_heap t) = n ->
    b ∈ job_heap t -> objects t !! b = Some rb ->
    jobs t !! key_of rb = None ->
    exists i, snd <$> outcomes (replicate n ProcessNext) t !! i
              = Some (Raise (KeyError (key_of rb))).
Proof.
  induction n as [|n IH]; intros t b rb Hinv Hlen Hb Hrb Hk.
  { apply nil_length_inv in Hlen. rewrite Hlen in Hb. by apply elem_of_nil in Hb. }
  assert (Hne : job_heap t <> []) by (intros Hnil; by rewrite Hnil in Hlen).
  destruct (process_next_application_heap t Hinv Hne)
    as (job & r & Hr & Hperm & Hobjs & Hres).
  destruct (decide (job = b)) as [->|Hjb].
  - rewrite Hr in Hrb. injection Hrb as ->. exists 0. cbn -[step].
    destruct Hres as [(_ & [? Hsome] & _)|(-> & _)]; [congruence|done].
  - destruct (IH (step t ProcessNext).1 b rb) as [i Hi].
    + by apply step_inv.
    + rewrite Hperm in Hlen. cbn -[step] in Hlen. lia.
    + rewrite Hperm in Hb. apply elem_of_cons in Hb as [->|Hb]; done.
    + rewrite Hobjs, list_lookup_alter_ne by done. done.
    + destruct Hres as [(_ & _ & ->)|(_ & _ & ->)]; [|done].
      by apply lookup_delete_None; right.
    + exists (S i). cbn -[step]. exact Hi.
Qed.

Lemma same_pair_raises (n : nat) :
  forall t a b ra rb,
    tracker_inv t -> length (job_heap t) = n ->
    a ∈ job_heap t -> b ∈ job_heap t -> a <> b ->
    objects t !! a = Some ra -> objects t !! b = Some rb ->
    key_of ra = key_of rb ->
    exists i, snd <$> outcomes (replicate n ProcessNext) t !! i
              = Some (Raise (KeyError (key_of ra))).
Proof.
  induction n as [|n IH]; intros t a b ra rb Hinv Hlen Ha Hb Hab Hra Hrb Hkey.
  { apply nil_length_inv in Hlen. rewrite Hlen in Ha. by apply elem_of_nil in Ha. }
  assert (Hne : job_heap t <> []) by (intros Hnil; by rewrite Hnil in Hlen).
  destruct (process_next_application_heap t Hinv Hne)
    as (job & r & Hr & Hperm & Hobjs & Hres).
  assert (Hlen' : length (job_heap (step t ProcessNext).1) = n).
  { rewrite Hperm in Hlen. cbn -[step] in Hlen. lia. }
  assert (Hinv' : tracker_inv (step t ProcessNext).1) by by apply step_inv.
  assert (Hother : forall x rx, x ∈ job_heap t -> x <> job ->
            objects t !! x = Some rx ->
            x ∈ job_heap (step t ProcessNext).1
            /\ objects (step t ProcessNext).1 !! x = Some rx).
  { intros x rx Hx Hxj Hrx. split.
    - rewrite Hperm in Hx. apply elem_of_cons in Hx as [->|Hx]; done.
    - rewrite Hobjs, list_lookup_alter_ne by done. done. }
  assert (Hgone : forall x rx, x ∈ job_heap t -> x <> job ->
            objects t !! x = Some rx -> key_of rx = key_of r ->
            exists i, snd <$> outcomes (replicate (S n) ProcessNext) t !! i
                      = Some (Raise (KeyError (key_of rx)))).
  { intros x rx Hx Hxj Hrx Hkx.
    destruct Hres as [(_ & _ & Hjobs)|(Hraise & _)].
    - destruct (Hother x rx Hx Hxj Hrx) as [Hx' Hrx'].
      destruct (absent_pair_raises n _ x rx Hinv' Hlen' Hx' Hrx') as [i Hi].
      { rewrite Hjobs, Hkx. by apply lookup_delete_None; left. }
      exists (S i). cbn -[step]. exact Hi.
    - exists 0. cbn -[step]. by rewrite Hraise, Hkx. }
  destruct (decide (a = job)) as [->|Haj].
  - rewrite Hr in Hra. injection Hra as ->.
    destruct (Hgone b rb Hb ltac:(done) Hrb (eq_sym Hkey)) as [i Hi].
    exists i. by rewrite Hkey.
  - destruct (decide (b = job)) as [->|Hbj].
    + rewrite Hr in Hrb. injection Hrb as ->. by apply (Hgone a ra).
    + destruct (Hother a ra Ha Haj Hra) as [Ha' Hra'].
      destruct (Hother b rb Hb Hbj Hrb) as [Hb' Hrb'].
      destruct (IH _ a b ra rb Hinv' Hlen' Ha' Hb' Hab Hra' Hrb' Hkey) as [i Hi].
      exists (S i). cbn -[step]. exact Hi.
Qed.

(** X7: on a tracker reached by any calls, if two different records in
    the heap bear the same (company, position) pair, then among the calls
    to [process_next_application] that empty the heap one raises
    [KeyError] for that pair. *)
Theorem same_pair_pending_raises (calls : list call) (a b : nat)
    (ra rb : JobApplication) :
  let t := run calls JobTracker_init in
  a ∈ job_heap t -> b ∈ job_heap t -> a <> b ->
  objects t !! a = Some ra -> objects t !! b = Some rb ->
  key_of ra = key_of rb ->
  exists i, snd <$> process_all t !! i = Some (Raise (KeyError (key_of ra))).
Proof.
  intros t Ha Hb Hab Hra Hrb Hkey.
  apply (same_pair_raises _ t a b ra rb); try done.
  apply run_inv, JobTracker_init_inv.
Qed.

Lemma same_pair_pending_raises_witness :
  exists i,
    snd <$> process_all (run stale_then_two JobTracker_init) !! i
    = Some (Raise (KeyError ("Acme", "Eng")%string)).
Proof.
  refine (same_pair_pending_raises stale_then_two 0 1
            {| company := "Acme"; position := "Eng";
               deadline := {| Strptime.year := 2025; Strptime.month := 6;
                              Strptime.day := 1 |};
               importance := 9; status := "Pending" |}
            {| company := "Acme"; position := "Eng";
               deadline := {| Strptime.year := 2025; Strptime.month := 6;
                              Strptime.day := 1 |};
               importance := 5; status := "Pending" |} _ _ _ _ _ _).
  - vm_compute. apply list_elem_of_here.
  - vm_compute. apply list_elem_of_further, list_elem_of_here.
  - lia.
  - vm_compute. reflexivity.
  - vm_compute. reflexivity.
  - reflexivity.
Defined.

(** ** The records a tracker holds *)

Lemma strptime_valid (d : string) (dt : Strptime.datetime) :
  Strptime.strptime d = Some dt ->
  Strptime.check_date_fields (Strptime.year dt) (Strptime.month dt)
    (Strptime.day dt) = true.
Proof.
  unfold Strptime.strptime.
  destruct (Strptime.format_regex_match _) as [[[[Y m] dd] rest]|]; [|done].
  destruct rest; [|done].
  destruct (Strptime.check_date_fields _ _ _) eqn:Hcheck; [|done].
  by intros [= <-].
Qed.

Lemma record_ok_set_status (s : string) (r : JobApplication) :
  s ∈ VALID_STATUSES -> record_ok r -> record_ok (set_status s r).
Proof. intros Hs (Hi & Hd & _). by repeat split. Qed.

Lemma Processed_valid : "Processed"%string ∈ VALID_STATUSES.
Proof. apply list_elem_of_further, list_elem_of_here. Qed.

Lemma Pending_valid : "Pending"%string ∈ VALID_STATUSES.
Proof. apply list_elem_of_here. Qed.

Lemma step_store_ok (t : JobTracker) (c : call) :
  tracker_inv t -> store_ok t -> store_ok (step t c).1.
Proof.
  intros Hinv Hok. destruct c as [c p d i| | |c p s].
  - cbn -[add_application].
    destruct (JobApplication_init c p d i) as [job|e] eqn:Hjob.
    + destruct (add_application_Return t c p d i job Hinv Hjob)
        as (h' & -> & Hperm & _). simpl.
      destruct (JobApplication_init_Return _ _ _ _ _ Hjob)
        as (_ & _ & Himp & Hst & Hd & Hi).
      intros id r Hr. simpl in *. rewrite Hperm.
      apply lookup_app_Some in Hr as [Hr|[Hlen Hr]].
      * destruct (Hok id r Hr) as [Hrec Hout]. split; [done|].
        intros Hnot. apply Hout. intros Hin. apply Hnot. by right.
      * apply list_lookup_singleton_Some in Hr as [Hid <-].
        split.
        -- repeat split; [lia|by apply (strptime_valid d)|].
           rewrite Hst. apply Pending_valid.
        -- intros Hnot. destruct Hnot.
           assert (id = length (objects t)) as -> by lia. left.
    + destruct (add_application_Raise t c p d i e Hjob) as (msg & _ & ->). done.
  - destruct (decide (job_heap t = [])) as [Hnil|Hne].
    { simpl. unfold process_next_application. by rewrite Hnil. }
    destruct (process_next_application_pops t Hinv Hne)
      as (job & heap' & r0 & Hperm & _ & _ & Hr0 & Hrun).
    assert (Hstate : objects (step t ProcessNext).1
                     = alter (set_status "Processed") job (objects t)
                     /\ job_heap (step t ProcessNext).1 = heap').
    { simpl. rewrite Hrun. by destruct (jobs t !! (company r0, position r0)). }
    destruct Hstate as [Hobjs Hheap]. intros id r Hr.
    rewrite Hobjs in Hr. rewrite Hheap.
    rewrite list_lookup_alter in Hr. destruct (decide (job = id)) as [->|Hne'].
    + rewrite Hr0 in Hr. injection Hr as <-. split; [|done].
      apply record_ok_set_status; [apply Processed_valid|].
      by apply (Hok id r0).
    + destruct (Hok id r Hr) as [Hrec Hout]. split; [done|].
      intros Hnot. apply Hout. rewrite Hperm. intros Hin.
      apply elem_of_cons in Hin as [->|Hin]; done.
  - pose proof (view_pending_applications_state t) as Hv. simpl.
    destruct (view_pending_applications t) as [[??]?]. simpl in *. by subst.
  - simpl. unfold update_status.
    destruct (jobs t !! (c, p)) as [job|] eqn:Hk; [|done].
    destruct (decide (s ∈ VALID_STATUSES)) as [Hs|]; [|done]. simpl.
    intros id r Hr. simpl in *. rewrite list_lookup_alter in Hr.
    destruct (decide (job = id)) as [->|Hne'].
    + destruct (objects t !! id) as [r0|] eqn:Hr0; [|done].
      injection Hr as <-. split.
      * apply record_ok_set_status; [done|]. by apply (Hok id r0).
      * intros Hnot. destruct Hnot. by apply (inv_index _ Hinv _ _ Hk).
    + by apply Hok.
Qed.

Lemma run_store_ok (calls : list call) :
  forall t, tracker_inv t -> store_ok t -> store_ok (run calls t).
Proof.
  induction calls as [|c calls IH]; intros t Hinv Hok; [done|].
  apply IH; [by apply step_inv|by apply step_store_ok].
Qed.

(** X8: after any sequence of calls, every record the tracker has
    allocated has a positive importance, a deadline that is a real date of
    a year from 1 to 9999, and one of the four valid statuses; and a record
    that is no longer in the heap has status [Processed]: nothing changes
    the status of a record once it has been processed. *)
Theorem stored_records_ok (calls : list call) (id : nat) (r : JobApplication) :
  let t := run calls JobTracker_init in
  objects t !! id = Some r ->
  record_ok r /\ (id ∉ job_heap t -> status r = "Processed"%string).
Proof.
  intros t Hr. apply (run_store_ok calls JobTracker_init); [| |done].
  - apply JobTracker_init_inv.
  - intros id' r' Hr'. done.
Qed.

Lemma stored_records_ok_witness :
  record_ok (set_status "Processed" initech)
  /\ (2 ∉ job_heap (run scenario JobTracker_init) ->
      status (set_status "Processed" initech) = "Processed"%string).
Proof.
  apply (stored_records_ok scenario 2 (set_status "Processed" initech)).
  vm_compute. reflexivity.
Defined.

(** ** Composition of status updates *)

(** X9: of two successive successful [update_status] calls for one pair
    only the second shows: the tracker is the one that the second call
    alone would have given. *)
Theorem update_status_last_wins (t : JobTracker) (c p s1 s2 : string) :
  is_Some (jobs t !! (c, p)) ->
  s1 ∈ VALID_STATUSES -> s2 ∈ VALID_STATUSES ->
  (update_status (update_status t c p s1).1.1 c p s2).1.1
  = (update_status t c p s2).1.1.
Proof.
  intros [id Hk] Hs1 Hs2. unfold update_status at 2 3. rewrite Hk.
  rewrite !decide_True by done. unfold update_status. simpl. rewrite Hk.
  rewrite decide_True by done. simpl. f_equal.
  rewrite list_alter_alter_eq. by apply list_alter_ext.
Qed.

Lemma update_status_last_wins_witness :
  (update_status
     (update_status (run scenario JobTracker_init) "Acme" "Eng" "Rejected").1.1
     "Acme" "Eng" "Interviewing").1.1
  = (update_status (run scenario JobTracker_init) "Acme" "Eng" "Interviewing").1.1.
Proof.
  apply update_status_last_wins.
  - vm_compute. eauto.
  - apply (bool_decide_unpack _). vm_compute. reflexivity.
  - apply (bool_decide_unpack _). vm_compute. reflexivity.
Defined.

(** ** Ties of the comparator *)

(** X10: neither of two records sorts before the other exactly when they
    have the same importance and the same deadline; company, position and
    status play no part. *)
Theorem JobApplication_lt_tie (a b : JobApplication) :
  JobApplication_lt a b = false /\ JobApplication_lt b a = false
  <-> importance a = importance b /\ deadline a = deadline b.
Proof.
  rewrite <- !not_true_iff_false, !JobApplication_lt_spec, !datetime_lt_spec.
  split.
  - intros [Hab Hba]. split; [lia|].
    destruct (deadline a) as [ya ma da], (deadline b) as [yb mb db].
    simpl in *. f_equal; lia.
  - intros [Himp Hd]. rewrite Hd. lia.
Qed.

(** ** The listing *)

Section SortedFacts.
Context {A : Type} (lt : A -> A -> bool).
Hypothesis lt_asym : forall x y, lt x y = true -> lt y x = false.
Hypothesis le_trans :
  forall x y z, lt y x = false -> lt z y = false -> lt z x = false.

Lemma sorted_insert_StronglySorted (x : A) (l : list A) :
  StronglySorted (fun a b => lt b a = false) l ->
  StronglySorted (fun a b => lt b a = false) (sorted_insert lt x l).
Proof.
  induction 1 as [|y l Hl IH Hy]; simpl.
  { repeat constructor. }
  destruct (lt x y) eqn:Hxy.
  - constructor; [by constructor|]. constructor; [by apply lt_asym|].
    eapply Forall_impl; [exact Hy|]. intros z Hz. simpl in *.
    eapply le_trans; [apply lt_asym, Hxy|done].
  - constructor; [done|]. rewrite sorted_insert_Permutation. by constructor.
Qed.

Lemma sorted_StronglySorted (l : list A) :
  StronglySorted (fun a b => lt b a = false) (sorted lt l).
Proof.
  unfold sorted.
  assert (Hacc : StronglySorted (fun a b => lt b a = false) []) by constructor.
  revert Hacc. generalize (@nil A) as acc.
  induction l as [|x l IH]; intros acc Hacc; simpl; [done|].
  apply IH. by apply sorted_insert_StronglySorted.
Qed.
End SortedFacts.

Lemma StronglySorted_lookup {A} (R : A -> A -> Prop) (l : list A) :
  StronglySorted R l ->
  forall i j a b, i < j -> l !! i = Some a -> l !! j = Some b -> R a b.
Proof.
  induction 1 as [|x l Hl IH Hx]; intros i j a b Hij Ha Hb; [done|].
  destruct j as [|j]; [lia|]. simpl in Hb. destruct i as [|i]; simpl in Ha.
  - injection Ha as <-. rewrite Forall_forall in Hx. apply Hx.
    by eapply list_elem_of_lookup_2.
  - apply (IH i j); [lia|done|done].
Qed.

Lemma pending_order_sorted (t : JobTracker) :
  forall i j a b, i < j ->
    pending_order t !! i = Some a -> pending_order t !! j = Some b ->
    object_lt (objects t) b a = false.
Proof.
  apply (StronglySorted_lookup (fun a b => object_lt (objects t) b a = false)).
  apply sorted_StronglySorted.
  - apply object_lt_asym.
  - apply object_le_trans.
Qed.


Lemma JobApplication_lt_tie_eq (a b : JobApplication) :
  JobApplication_lt a b = false -> JobApplication_lt b a = false ->
  importance a = importance b /\ deadline a = deadline b.
Proof.
  rewrite <- !not_true_iff_false, !JobApplication_lt_spec, !datetime_lt_spec.
  intros Hab Hba. split; [lia|].
  destruct (deadline a) as [ya ma da], (deadline b) as [yb mb db].
  simpl in *. f_equal; lia.
Qed.

(** X12: after any sequence of calls, the record that
    [view_pending_applications] lists first and the record that
    [process_next_application] then removes from the heap have the same
    importance and the same deadline: the listing shows what is processed
    next, up to ties. *)
Theorem first_listed_is_processed_next (calls : list call) (f : nat)
    (rf : JobApplication) :
  let t := run calls JobTracker_init in
  head (pending_order t) = Some f -> objects t !! f = Some rf ->
  exists job r,
    objects t !! job = Some r
    /\ job ∈ job_heap t
    /\ (job ∉ job_heap (process_next_application t).1.1)
    /\ importance r = importance rf /\ deadline r = deadline rf.
Proof.
  intros t Hf Hrf.
  assert (Hinv : tracker_inv t) by apply run_inv, JobTracker_init_inv.
  assert (Hperm : pending_order t ≡ₚ job_heap t) by apply sorted_Permutation.
  assert (Hfin : f ∈ job_heap t).
  { rewrite <- Hperm. by apply head_Some_elem_of. }
  assert (Hne : job_heap t <> []).
  { intros Hnil. rewrite Hnil in Hfin. by apply elem_of_nil in Hfin. }
  destruct (process_next_application_pops t Hinv Hne)
    as (job & heap' & r & Hpop & _ & Hmin & Hr & Hrun).
  assert (Hjob : job ∈ job_heap t) by (rewrite Hpop; left).
  exists job, r. split; [done|]. split; [done|]. split.
  - pose proof (inv_nodup _ Hinv) as Hnd. rewrite Hpop in Hnd.
    apply NoDup_cons in Hnd as [Hnotin _]. rewrite Hrun.
    by destruct (jobs t !! (company r, position r)).
  - apply JobApplication_lt_tie_eq.
    + assert (Hjo : job ∈ pending_order t) by by rewrite Hperm.
      apply list_elem_of_lookup in Hjo as [j Hj].
      rewrite head_lookup in Hf. destruct j as [|j].
      * rewrite Hf in Hj. injection Hj as ->. rewrite Hr in Hrf.
        injection Hrf as ->. apply JobApplication_lt_irrefl.
      * pose proof (pending_order_sorted t 0 (S j) f job ltac:(lia) Hf Hj) as Hlt.
        unfold object_lt in Hlt. by rewrite Hr, Hrf in Hlt.
    + specialize (Hmin f Hfin). unfold object_lt in Hmin.
      by rewrite Hrf, Hr in Hmin.
Qed.

Lemma first_listed_is_processed_next_witness :
  exists job r,
    objects (run scenario JobTracker_init) !! job = Some r
    /\ job ∈ job_heap (run scenario JobTracker_init)
    /\ (job ∉ job_heap (process_next_application
                          (run scenario JobTracker_init)).1.1)
    /\ importance r = importance globex /\ deadline r = deadline globex.
Proof.
  apply (first_listed_is_processed_next scenario 1 globex).
  - vm_compute. reflexivity.
  - vm_compute. reflexivity.
Defined.

(** ** Printing and reading a deadline *)

Lemma code_points_cons (c0 : ascii) (s0 : Strptime.text) :
  (N_of_ascii c0 < 128)%N ->
  Strptime.code_points (c0 :: s0) = N_of_ascii c0 :: Strptime.code_points s0.
Proof.
  intros Hc0.
  assert (H1 : Strptime.one_byte c0 = N_of_ascii c0).
  { unfold Strptime.one_byte. apply N.ltb_lt in Hc0. by rewrite Hc0. }
  assert (Hlead : forall lo hi, (128 <= lo)%N ->
            (lo <=? N_of_ascii c0)%N && (N_of_ascii c0 <=? hi)%N = false).
  { intros lo hi Hlo. apply andb_false_iff. left. apply N.leb_gt. lia. }
  assert (H2 : forall c1, Strptime.two_bytes c0 c1 = None).
  { intros c1. unfold Strptime.two_bytes. by rewrite Hlead. }
  assert (H3 : forall c1 c2, Strptime.three_bytes c0 c1 c2 = None).
  { intros c1 c2. unfold Strptime.three_bytes. by rewrite Hlead. }
  assert (H4 : forall c1 c2 c3, Strptime.four_bytes c0 c1 c2 c3 = None).
  { intros c1 c2 c3. unfold Strptime.four_bytes. by rewrite Hlead. }
  destruct s0 as [|c1 [|c2 [|c3 s3]]];
    cbn [Strptime.code_points]; rewrite ?H1, ?H2, ?H3, ?H4; reflexivity.
Qed.

Lemma code_points_app (a b : Strptime.text) :
  Forall (fun c => (N_of_ascii c < 128)%N) a ->
  Strptime.code_points (a ++ b) = (N_of_ascii <$> a) ++ Strptime.code_points b.
Proof.
  induction 1 as [|c a Hc _ IH]; [done|].
  rewrite <- app_comm_cons, code_points_cons by done. by rewrite IH.
Qed.

Lemma prints_spec is_text s n :
  prints is_text s n = true ->
  Forall (fun c => (N_of_ascii c < 128)%N) s
  /\ is_text (N_of_ascii <$> s) = true
  /\ Strptime.int (N_of_ascii <$> s) = n.
Proof.
  unfold prints. rewrite !andb_true_iff, Nat.eqb_eq, forallb_forall.
  intros [[Hs ?] ?]. split; [|done].
  apply Forall_forall. intros c Hc. apply N.ltb_lt, Hs.
  by apply list_elem_of_In.
Qed.

Lemma year_text_ok (y : nat) :
  1 <= y <= 9999 -> prints is_year_text (year_text y) y = true.
Proof.
  intros Hy.
  assert (Hall : forallb (fun y => prints is_year_text (year_text y) y)
                   (seq 1 9999) = true) by (vm_compute; reflexivity).
  rewrite forallb_forall in Hall. apply Hall, in_seq. lia.
Qed.

Lemma month_text_ok (m : nat) :
  1 <= m <= 12 -> prints is_month_text (field_text m) m = true.
Proof.
  intros Hm.
  assert (Hall : forallb (fun m => prints is_month_text (field_text m) m)
                   (seq 1 12) = true) by (vm_compute; reflexivity).
  rewrite forallb_forall in Hall. apply Hall, in_seq. lia.
Qed.

Lemma day_text_ok (d : nat) :
  1 <= d <= 31 -> prints is_day_text (field_text d) d = true.
Proof.
  intros Hd.
  assert (Hall : forallb (fun d => prints is_day_text (field_text d) d)
                   (seq 1 31) = true) by (vm_compute; reflexivity).
  rewrite forallb_forall in Hall. apply Hall, in_seq. lia.
Qed.

Lemma days_in_month_le (y m : nat) : Strptime.days_in_month y m <= 31.
Proof.
  unfold Strptime.days_in_month.
  destruct ((m =? 2) && Strptime.is_leap y); [lia|].
  do 13 (destruct m as [|m]; [simpl; lia|]). simpl. destruct m; lia.
Qed.

Lemma check_date_fields_bounds (y m d : nat) :
  Strptime.check_date_fields y m d = true ->
  1 <= y <= 9999 /\ 1 <= m <= 12 /\ 1 <= d <= Strptime.days_in_month y m.
Proof.
  unfold Strptime.check_date_fields.
  rewrite !andb_true_iff, !Nat.leb_le. tauto.
Qed.

(** X13: a deadline that the tracker prints reads back as the same
    date: for every real date of a year from 1 to 9999, [strptime] of its
    [isoformat] with the format [%Y-%m-%d] is that date. *)
Theorem strptime_isoformat (dt : Strptime.datetime) :
  Strptime.check_date_fields (Strptime.year dt) (Strptime.month dt)
    (Strptime.day dt) = true ->
  Strptime.strptime (isoformat dt) = Some dt.
Proof.
  intros Hcheck. destruct dt as [y m d]. simpl in Hcheck.
  destruct (check_date_fields_bounds _ _ _ Hcheck) as (Hy & Hm & Hd).
  pose proof (days_in_month_le y m) as Hdim.
  destruct (prints_spec _ _ _ (year_text_ok y Hy)) as (HYa & HY & HYv).
  destruct (prints_spec _ _ _ (month_text_ok m Hm)) as (HMa & HM & HMv).
  destruct (prints_spec _ _ _ (day_text_ok d ltac:(lia))) as (HDa & HD & HDv).
  apply strptime_names_date.
  exists (N_of_ascii <$> year_text y), (N_of_ascii <$> field_text m),
    (N_of_ascii <$> field_text d).
  split.
  { unfold isoformat. simpl. rewrite list_ascii_of_string_of_list_ascii.
    rewrite code_points_app by done.
    rewrite code_points_cons by (vm_compute; reflexivity).
    rewrite code_points_app by done.
    rewrite code_points_cons by (vm_compute; reflexivity).
    rewrite <- (app_nil_r (field_text d)) at 1.
    rewrite code_points_app by done. simpl. by rewrite app_nil_r. }
  rewrite HYv, HMv, HDv. done.
Qed.

Lemma strptime_isoformat_witness :
  Strptime.strptime
    (isoformat {| Strptime.year := 2024; Strptime.month := 2;
                  Strptime.day := 29 |})
  = Some {| Strptime.year := 2024; Strptime.month := 2; Strptime.day := 29 |}.
Proof.
  apply strptime_isoformat. vm_compute. reflexivity.
Defined.
